(** * graphql-lambda: subscription index, connection registry and event fan-out

    A shallow embedding of [SubscriptionManager], [ApiGatewayConnectionManager]
    and [EventProcessor.createHandler].  JavaScript [Map]s keyed by strings are
    finite maps ([gmap string _]); arrays are lists; [async] functions that
    touch the manager's fields or may reject are computations in a small
    state-and-exception monad; the concurrent branches of a dispatch are a
    pool of promises that a schedule advances from one [await] to the next. *)

From stdpp Require Import base option list strings gmap fin_maps.
From Stdlib Require Import ZArith.

(** ** Data model (types.ts is used through these shapes only) *)

Record IConnectionData := {
  endpoint : string;
  context : list (string * string);
  isInitialized : bool
}.

Record IConnection := {
  id : string;
  data : IConnectionData
}.

(** [OperationRequest & { operationId: string }] *)
Record OperationRequest := {
  query : string;
  variables : list (string * string);
  operationName : option string;
  op_operationId : string
}.

Record ISubscriber := {
  connection : IConnection;
  operation : OperationRequest;
  event : string;
  operationId : string
}.

Record ISubscriptionEvent := {
  ev_event : string;
  ev_payload : string
}.

(** The private field [subscriptions: Map<string, ISubscriber[]>]. *)
Abbreviation Subscriptions := (gmap string (list ISubscriber)).

(** ** SubscriptionManager *)

Section SubscriptionManager.

(** The two constructor options; the defaults are given below. *)
Variable getSubscriptionNameFromEvent : ISubscriptionEvent -> string.
Variable getSubscriptionNameFromConnection : string -> IConnection -> string.

(** [createAsyncIterator([subscribers])]: the async iterable is the finite
    sequence of its batches; the body runs when iteration starts. *)
Definition subscribersByEvent (subs : Subscriptions) (ev : ISubscriptionEvent)
  : list (list ISubscriber) :=
  let name := getSubscriptionNameFromEvent ev in
  let subscriptions := default [] (subs !! name) in
  let subscribers := filter (λ subscriber, event subscriber = name) subscriptions in
  [subscribers].

(** The body of [names.forEach((n) => ...)] in [subscribe]. *)
Definition subscribe_name (conn : IConnection) (op : OperationRequest)
    (subs : Subscriptions) (n : string) : Subscriptions :=
  let name := getSubscriptionNameFromConnection n conn in
  let subscription :=
    {| connection := conn; operation := op; event := name;
       operationId := op_operationId op |} in
  match subs !! name with
  | None => <[name := [subscription]]> subs
  | Some subscriptions =>
      match List.find (λ s, bool_decide (id (connection s) = id conn)) subscriptions with
      | None => <[name := subscriptions ++ [subscription]]> subs
      | Some _ => subs
      end
  end.

Definition subscribe (names : list string) (conn : IConnection)
    (op : OperationRequest) (subs : Subscriptions) : Subscriptions :=
  foldl (subscribe_name conn op) subs names.

Definition unsubscribe (subscriber : ISubscriber) (subs : Subscriptions)
  : Subscriptions :=
  match subs !! event subscriber with
  | Some subscriptions =>
      <[event subscriber :=
          filter (λ s, id (connection s) ≠ id (connection subscriber)) subscriptions]> subs
  | None => subs
  end.

(** [this.subscriptions.keys()] / [forEach]: the keys present in the map. *)
Definition keys (subs : Subscriptions) : list string := (map_to_list subs).*1.

(** One round of the loop body [this.subscriptions.set(key, keep(get(key)))]. *)
Definition refilter (keep : list ISubscriber -> list ISubscriber)
    (subs : Subscriptions) (key : string) : Subscriptions :=
  <[key := keep (default [] (subs !! key))]> subs.

Definition unsubscribeOperation (connectionId opId : string)
    (subs : Subscriptions) : Subscriptions :=
  foldl
    (refilter (filter (λ subscriber,
       id (connection subscriber) ≠ connectionId ∧ operationId subscriber ≠ opId)))
    subs (keys subs).

Definition unsubscribeAllByConnectionId (connectionId : string)
    (subs : Subscriptions) : Subscriptions :=
  foldl
    (refilter (filter (λ s, id (connection s) = connectionId)))
    subs (keys subs).

End SubscriptionManager.

(** Defaults of the constructor: [(event) => event.event] and [(name) => name]. *)
Definition defaultNameFromEvent (ev : ISubscriptionEvent) : string := ev_event ev.
Definition defaultNameFromConnection (name : string) (_ : IConnection) : string := name.

(** [createAsyncIterator(batches)]: [next()] hands out the head, and reports
    [done] (no value) once the batches are used up. *)
Definition iterator_next {A : Type} (it : list A) : option A * list A :=
  match it with
  | [] => (None, [])
  | x :: rest => (Some x, rest)
  end.

(** ** Rejections and the state threaded through asynchronous code *)

(** Values that reach a [catch]: an error object (with the [statusCode] the
    AWS SDK attaches, when there is one), the manager's own
    [ConnectionNotFoundError], or a falsy value. *)
Inductive Thrown :=
  | ThrownFalsy
  | ConnectionNotFoundError (message : string)
  | ThrownError (statusCode : option Z) (message : string).

Definition statusCode (e : Thrown) : option Z :=
  match e with
  | ThrownError code _ => code
  | _ => None
  end.

(** [new ApiGatewayManagementApi({ endpoint, apiVersion })] *)
Record ApiGatewayManagementApi := {
  client_endpoint : string;
  apiVersion : string
}.

(** One [postToConnection({ ConnectionId, Data })] request and the client it
    went through. *)
Record PostToConnection := {
  via : ApiGatewayManagementApi;
  ConnectionId : string;
  Data : string
}.

(** The fields of [ApiGatewayConnectionManager], followed by two observation
    logs: the transport requests issued and the errors handed to [onError]. *)
Record World := {
  apiGatewayManager : option ApiGatewayManagementApi;
  connections : gmap string IConnection;
  posted : list PostToConnection;
  reported : list Thrown
}.

Definition set_apiGatewayManager (c : option ApiGatewayManagementApi) (w : World) : World :=
  {| apiGatewayManager := c; connections := connections w;
     posted := posted w; reported := reported w |}.
Definition set_connections (m : gmap string IConnection) (w : World) : World :=
  {| apiGatewayManager := apiGatewayManager w; connections := m;
     posted := posted w; reported := reported w |}.
Definition log_posted (r : PostToConnection) (w : World) : World :=
  {| apiGatewayManager := apiGatewayManager w; connections := connections w;
     posted := posted w ++ [r]; reported := reported w |}.
Definition log_reported (e : Thrown) (w : World) : World :=
  {| apiGatewayManager := apiGatewayManager w; connections := connections w;
     posted := posted w; reported := reported w ++ [e] |}.

(** A settled promise. *)
Inductive Outcome (A : Type) :=
  | Resolved (a : A)
  | Rejected (e : Thrown).
Arguments Resolved {A} a.
Arguments Rejected {A} e.

Definition Async (A : Type) : Type := World -> Outcome A * World.

#[export] Instance Async_ret : MRet Async := λ A a w, (Resolved a, w).
#[export] Instance Async_bind : MBind Async := λ A B f m w,
  match m w with
  | (Resolved a, w') => f a w'
  | (Rejected e, w') => (Rejected e, w')
  end.

Definition throw {A : Type} (e : Thrown) : Async A := λ w, (Rejected e, w).

(** [await] of a promise whose outcome does not depend on the managers. *)
Definition settle {A : Type} (o : Outcome A) : Async A := λ w, (o, w).

(** [try { m } catch (e) { h e }], and [promise.catch(h)]. *)
Definition catch {A : Type} (m : Async A) (h : Thrown -> Async A) : Async A := λ w,
  match m w with
  | (Resolved a, w') => (Resolved a, w')
  | (Rejected e, w') => h e w'
  end.

(** ** ApiGatewayConnectionManager *)

Section ApiGatewayConnectionManager.

(** The network behind [postToConnection(...).promise()]: [None] when the
    post is accepted, otherwise the error the promise rejects with. *)
Variable transport : ApiGatewayManagementApi -> string -> string -> option Thrown.

Definition hydrateOrRegisterConnection (connectionId endpoint : string)
  : Async IConnection := λ w,
  match connections w !! connectionId with
  | Some connection => (Resolved connection, w)
  | None =>
      let connection :=
        {| id := connectionId;
           data := {| endpoint := endpoint; context := []; isInitialized := true |} |} in
      (Resolved connection,
       set_connections (<[connectionId := connection]> (connections w)) w)
  end.

Definition notFoundMessage (connectionId : string) : string :=
  "Connection " +:+ connectionId +:+ " not found".

Definition hydrateConnection (connectionId : string) : Async IConnection := λ w,
  match connections w !! connectionId with
  | None => (Rejected (ConnectionNotFoundError (notFoundMessage connectionId)), w)
  | Some connection => (Resolved connection, w)
  end.

Definition setConnectionData (d : IConnectionData) (connection : IConnection)
  : Async unit := λ w,
  (Resolved tt,
   set_connections
     (<[id connection := {| id := id connection; data := d |}]> (connections w)) w).

Definition registerConnection (connectionId endpoint : string)
  : Async IConnection := λ w,
  let connection :=
    {| id := connectionId;
       data := {| endpoint := endpoint; context := []; isInitialized := false |} |} in
  (Resolved connection,
   set_connections (<[connectionId := connection]> (connections w)) w).

Definition unregisterConnection (connection : IConnection) : Async unit := λ w,
  (Resolved tt, set_connections (delete (id connection) (connections w)) w).

Definition createApiGatewayManager (endpoint : string)
  : Async ApiGatewayManagementApi := λ w,
  match apiGatewayManager w with
  | Some client => (Resolved client, w)
  | None =>
      let client := {| client_endpoint := endpoint; apiVersion := "2018-11-29" |} in
      (Resolved client, set_apiGatewayManager (Some client) w)
  end.

Definition postToConnection (client : ApiGatewayManagementApi)
    (connectionId payload : string) : Async unit := λ w,
  let request := {| via := client; ConnectionId := connectionId; Data := payload |} in
  (match transport client connectionId payload with
   | None => Resolved tt
   | Some e => Rejected e
   end, log_posted request w).

(** [e && e.statusCode === 410] *)
Definition isStale (e : Thrown) : bool :=
  match e with
  | ThrownFalsy => false
  | _ => bool_decide (statusCode e = Some 410%Z)
  end.

Definition sendToConnection (connection : IConnection) (payload : string)
  : Async unit :=
  catch
    (client ← createApiGatewayManager (endpoint (data connection));
     postToConnection client (id connection) payload)
    (λ e, if isStale e then unregisterConnection connection else throw e).

End ApiGatewayConnectionManager.

(** ** EventProcessor *)

(** graphql's [ExecutionResult]. *)
Record ExecutionResult := {
  result_data : option string;
  result_errors : list string
}.

(** What [execute] hands back: either something that is not an async
    iterable, or an iterable, given by how its first [next()] settles and the
    [value] that carries ([None] for [null], [undefined] and a finished
    iterator). *)
Inductive ExecuteOutput :=
  | NotAsyncIterable
  | AsyncIterable (first : Outcome (option ExecutionResult)).

(** The argument of [formatMessage]. *)
Record OperationMessage := {
  message_id : string;
  payload : ExecutionResult;
  type : string
}.

Section EventProcessor.

Variable getSubscriptionNameFromEvent : ISubscriptionEvent -> string.
Variable transport : ApiGatewayManagementApi -> string -> string -> option Thrown.

(** Collaborators that live outside the processor: the server's option
    factory, the execution engine (both receive a fresh
    [ArrayPubSub([event])], a function of the event), the message
    serialiser and the protocol constant [SERVER_EVENT_TYPES.GQL_DATA]. *)
Variable GraphQLServerOptions : Type.
Variable createGraphQLServerOptions :
  ISubscriptionEvent -> IConnection -> OperationRequest -> Outcome GraphQLServerOptions.
Variable execute :
  GraphQLServerOptions -> ISubscriptionEvent -> IConnection -> OperationRequest ->
  Outcome ExecuteOutput.
Variable formatMessage : OperationMessage -> string.
Variable GQL_DATA : string.

(** The constructor option [onError]: [None] when the callback returns,
    [Some e] when it throws [e] itself. *)
Variable onError : Thrown -> option Thrown.

(** The [async (subscriber) => { ... }] passed to the first [map]. *)
Definition deliver (ev : ISubscriptionEvent) (subscriber : ISubscriber) : Async unit :=
  options ← settle (createGraphQLServerOptions ev (connection subscriber) (operation subscriber));
  iterable ← settle (execute options ev (connection subscriber) (operation subscriber));
  match iterable with
  | NotAsyncIterable => mret tt
  | AsyncIterable first =>
      result ← settle first;
      match result with
      | Some value =>
          sendToConnection transport (connection subscriber)
            (formatMessage {| message_id := operationId subscriber;
                              payload := value;
                              type := GQL_DATA |})
      | None => mret tt
      end
  end.

(** [this.onError] as a rejection handler: the error is handed over, and the
    handler's own outcome becomes the promise's. *)
Definition callOnError (e : Thrown) : Async unit := λ w,
  (match onError e with
   | None => Resolved tt
   | Some e' => Rejected e'
   end, log_reported e w).

(** [Promise.all(promises)] when the event loop happens to take the branches
    in array order and to let each run to its end before the next moves:
    the result is the first rejection if there is one.  This is one schedule
    among those the event loop admits ([handler_is_array_order]); what holds
    of every schedule is stated over [promiseAll] and [handlerUnder]. *)
Fixpoint all (promises : list (Async unit)) : Async unit :=
  match promises with
  | [] => mret tt
  | p :: rest => λ w,
      let '(o, w1) := p w in
      let '(os, w2) := all rest w1 in
      (match o with
       | Rejected e => Rejected e
       | Resolved _ => os
       end, w2)
  end.

(** [for await (const x of xs) { body }] *)
Fixpoint forAwait {A : Type} (xs : list A) (body : A -> Async unit) : Async unit :=
  match xs with
  | [] => mret tt
  | x :: rest => _ ← body x; forAwait rest body
  end.

(** The handler returned by [createHandler(server)], run against the
    server's subscription manager [subs]. *)
Definition handler (subs : Subscriptions) (ev : ISubscriptionEvent) : Async unit :=
  forAwait (subscribersByEvent getSubscriptionNameFromEvent subs ev)
    (λ subscribers,
       let promises :=
         map (λ promise, catch promise callOnError)
             (map (deliver ev) subscribers) in
       all promises).

End EventProcessor.

(** ** Properties of the index and accounting of a dispatch *)

(** At most one subscriber per connection id under every key. *)
Definition onePerConnection (subs : Subscriptions) : Prop :=
  ∀ name l, subs !! name = Some l → NoDup ((λ s, id (connection s)) <$> l).

(** Every subscriber is filed under the key recorded in its [event] field. *)
Definition keyedByEvent (subs : Subscriptions) : Prop :=
  ∀ name l, subs !! name = Some l → Forall (λ s, event s = name) l.

(** The entries of connection [connectionId] under key [name]. *)
Definition entriesOf (subs : Subscriptions) (name connectionId : string)
  : list ISubscriber :=
  filter (λ s, id (connection s) = connectionId) (default [] (subs !! name)).

(** The connection ids filed under key [name], in list order. *)
Definition connectionIds (subs : Subscriptions) (name : string) : list string :=
  (λ s, id (connection s)) <$> default [] (subs !! name).

(** The indexes a manager started on an empty [Map] can hold. *)
Inductive reachable (nameFromConnection : string -> IConnection -> string)
  : Subscriptions -> Prop :=
  | reachable_empty : reachable nameFromConnection ∅
  | reachable_subscribe names conn op subs :
      reachable nameFromConnection subs →
      reachable nameFromConnection (subscribe nameFromConnection names conn op subs)
  | reachable_unsubscribe subscriber subs :
      reachable nameFromConnection subs →
      reachable nameFromConnection (unsubscribe subscriber subs)
  | reachable_unsubscribeOperation connectionId opId subs :
      reachable nameFromConnection subs →
      reachable nameFromConnection (unsubscribeOperation connectionId opId subs)
  | reachable_unsubscribeAllByConnectionId connectionId subs :
      reachable nameFromConnection subs →
      reachable nameFromConnection (unsubscribeAllByConnectionId connectionId subs).

(** A run of sends, one after the other, whatever each one's outcome. *)
Fixpoint sendEach (transport : ApiGatewayManagementApi -> string -> string -> option Thrown)
    (messages : list (IConnection * string)) (w : World) : World :=
  match messages with
  | [] => w
  | (connection, payload) :: rest =>
      sendEach transport rest (sendToConnection transport connection payload w).2
  end.

(** The client a send to [connection] goes through when the manager holds
    [current]. *)
Definition clientFor (current : option ApiGatewayManagementApi)
    (connection : IConnection) : ApiGatewayManagementApi :=
  match current with
  | Some client => client
  | None => {| client_endpoint := endpoint (data connection); apiVersion := "2018-11-29" |}
  end.

Section Accounting.

Variable transport : ApiGatewayManagementApi -> string -> string -> option Thrown.
Variable GraphQLServerOptions : Type.
Variable createGraphQLServerOptions :
  ISubscriptionEvent -> IConnection -> OperationRequest -> Outcome GraphQLServerOptions.
Variable execute :
  GraphQLServerOptions -> ISubscriptionEvent -> IConnection -> OperationRequest ->
  Outcome ExecuteOutput.
Variable formatMessage : OperationMessage -> string.
Variable GQL_DATA : string.

(** What executing a subscriber's operation against the event comes to. *)
Inductive Execution :=
  | ExecutionFailed (e : Thrown)
  | NoResult
  | Result (value : ExecutionResult).

Definition executionOf (ev : ISubscriptionEvent) (s : ISubscriber) : Execution :=
  match createGraphQLServerOptions ev (connection s) (operation s) with
  | Rejected e => ExecutionFailed e
  | Resolved options =>
      match execute options ev (connection s) (operation s) with
      | Rejected e => ExecutionFailed e
      | Resolved NotAsyncIterable => NoResult
      | Resolved (AsyncIterable (Rejected e)) => ExecutionFailed e
      | Resolved (AsyncIterable (Resolved None)) => NoResult
      | Resolved (AsyncIterable (Resolved (Some value))) => Result value
      end
  end.

(** The wire envelope for [value] on behalf of subscriber [s]. *)
Definition envelope (s : ISubscriber) (value : ExecutionResult) : string :=
  formatMessage {| message_id := operationId s; payload := value; type := GQL_DATA |}.

(** How a subscriber's branch ends. *)
Inductive Branch :=
  | Delivered
  | Pruned
  | Skipped
  | FailedBeforeSend (e : Thrown)
  | FailedInSend (e : Thrown).

Definition branchOf (current : option ApiGatewayManagementApi)
    (ev : ISubscriptionEvent) (s : ISubscriber) : Branch :=
  match executionOf ev s with
  | ExecutionFailed e => FailedBeforeSend e
  | NoResult => Skipped
  | Result value =>
      match transport (clientFor current (connection s)) (id (connection s))
              (envelope s value) with
      | None => Delivered
      | Some e => if isStale e then Pruned else FailedInSend e
      end
  end.

Definition clientAfter (current : option ApiGatewayManagementApi)
    (ev : ISubscriptionEvent) (s : ISubscriber) : option ApiGatewayManagementApi :=
  match executionOf ev s with
  | Result _ => Some (clientFor current (connection s))
  | _ => current
  end.

Fixpoint branchesOf (current : option ApiGatewayManagementApi)
    (ev : ISubscriptionEvent) (subscribers : list ISubscriber) : list Branch :=
  match subscribers with
  | [] => []
  | s :: rest => branchOf current ev s :: branchesOf (clientAfter current ev s) ev rest
  end.

Definition failed (b : Branch) : bool :=
  match b with FailedBeforeSend _ | FailedInSend _ => true | _ => false end.
Definition failedInSend (b : Branch) : bool :=
  match b with FailedInSend _ => true | _ => false end.
Definition skipped (b : Branch) : bool :=
  match b with Skipped => true | _ => false end.
Definition sent (b : Branch) : bool :=
  match b with Delivered | Pruned | FailedInSend _ => true | _ => false end.
Definition failure (b : Branch) : option Thrown :=
  match b with FailedBeforeSend e | FailedInSend e => Some e | _ => None end.

Definition count (p : Branch -> bool) (bs : list Branch) : nat :=
  length (List.filter p bs).

End Accounting.

(** What a dispatch hands to the transport for a subscriber: the connection
    id and the envelope, when the execution has a result. *)
Definition deliveryOf (GraphQLServerOptions : Type)
    (createGraphQLServerOptions :
       ISubscriptionEvent -> IConnection -> OperationRequest -> Outcome GraphQLServerOptions)
    (execute :
       GraphQLServerOptions -> ISubscriptionEvent -> IConnection -> OperationRequest ->
       Outcome ExecuteOutput)
    (formatMessage : OperationMessage -> string) (GQL_DATA : string)
    (ev : ISubscriptionEvent) (s : ISubscriber) : option (string * string) :=
  match executionOf GraphQLServerOptions createGraphQLServerOptions execute ev s with
  | Result value => Some (id (connection s), envelope formatMessage GQL_DATA s value)
  | _ => None
  end.

(** ** The fan-out as the event loop runs it

    [subscribers.map(async ...)] starts every branch at once; a branch runs
    until its next [await], then any branch may go on.  Only three points of a
    branch touch the managers, so a branch is at one of four stages. *)

Inductive Stage :=
  | Started                           (* nothing done to the managers yet *)
  | Posting (answer : Outcome unit)   (* request issued, its answer awaited *)
  | Rejecting (inSend : bool) (e : Thrown)  (* rejected, [onError] not yet called *)
  | Settled (b : Branch) (o : Outcome unit). (* the [catch]-wrapped promise settled *)

(** The promises of one [Promise.all], the managers, and the first rejection
    in time among the wrapped promises, once there is one. *)
Record Pool := {
  branches : list (ISubscriber * Stage);
  world : World;
  rejection : option Thrown
}.

Section Concurrent.

Variable getSubscriptionNameFromEvent : ISubscriptionEvent -> string.
Variable transport : ApiGatewayManagementApi -> string -> string -> option Thrown.
Variable GraphQLServerOptions : Type.
Variable createGraphQLServerOptions :
  ISubscriptionEvent -> IConnection -> OperationRequest -> Outcome GraphQLServerOptions.
Variable execute :
  GraphQLServerOptions -> ISubscriptionEvent -> IConnection -> OperationRequest ->
  Outcome ExecuteOutput.
Variable formatMessage : OperationMessage -> string.
Variable GQL_DATA : string.
Variable onError : Thrown -> option Thrown.

(** One branch, from where it stands to its next [await]:
    - from the start through the three awaits of the execution and, with a
      result, on into [sendToConnection] up to the awaited post (client
      looked up or built, request issued);
    - from the answer through the [catch] of [sendToConnection];
    - from the rejection through the call of [onError]. *)
Definition advance (ev : ISubscriptionEvent) (s : ISubscriber) (stage : Stage)
    (w : World) : Stage * World :=
  match stage with
  | Started =>
      match executionOf GraphQLServerOptions createGraphQLServerOptions execute ev s with
      | ExecutionFailed e => (Rejecting false e, w)
      | NoResult => (Settled Skipped (Resolved tt), w)
      | Result value =>
          let '(answer, w1) :=
            (client ← createApiGatewayManager (endpoint (data (connection s)));
             postToConnection transport client (id (connection s))
               (envelope formatMessage GQL_DATA s value)) w in
          (Posting answer, w1)
      end
  | Posting (Resolved _) => (Settled Delivered (Resolved tt), w)
  | Posting (Rejected e) =>
      if isStale e
      then let '(_, w1) := unregisterConnection (connection s) w in
           (Settled Pruned (Resolved tt), w1)
      else (Rejecting true e, w)
  | Rejecting inSend e =>
      let '(o, w1) := callOnError onError e w in
      (Settled (if inSend then FailedInSend e else FailedBeforeSend e) o, w1)
  | Settled b o => (Settled b o, w)
  end.

(** The event loop resumes branch [i]. *)
Definition stepAt (ev : ISubscriptionEvent) (p : Pool) (i : nat) : Pool :=
  match branches p !! i with
  | None => p
  | Some (s, stage) =>
      let '(stage', w') := advance ev s stage (world p) in
      {| branches := <[i := (s, stage')]> (branches p);
         world := w';
         rejection :=
           match rejection p, stage' with
           | Some e, _ => Some e
           | None, Settled _ (Rejected e) => Some e
           | None, _ => None
           end |}
  end.

Definition settled (b : ISubscriber * Stage) : bool :=
  match b.2 with Settled _ _ => true | _ => false end.

(** [await Promise.all(promises)] under a schedule, the order in which the
    event loop resumes the branches: rejected with the first rejection as
    soon as there is one (the branches resumed after it in the schedule are
    those that still ran before the rejection was observed), resolved once
    every promise is, and pending ([None]) otherwise. *)
Definition promiseAll (schedule : list nat) (ev : ISubscriptionEvent)
    (subscribers : list ISubscriber) (w : World) : option (Outcome unit) * World :=
  let p := foldl (stepAt ev)
             {| branches := (λ s, (s, Started)) <$> subscribers;
                world := w; rejection := None |}
             schedule in
  (match rejection p with
   | Some e => Some (Rejected e)
   | None => if forallb settled (branches p) then Some (Resolved tt) else None
   end, world p).

(** How the branches of that run have ended, for those that have. *)
Definition outcomesUnder (schedule : list nat) (ev : ISubscriptionEvent)
    (subscribers : list ISubscriber) (w : World) : list Branch :=
  omap (λ b, match b.2 with Settled c _ => Some c | _ => None end)
    (branches (foldl (stepAt ev)
                 {| branches := (λ s, (s, Started)) <$> subscribers;
                    world := w; rejection := None |}
                 schedule)).

(** [for await (const subscribers of batches) { await Promise.all(...) }],
    each batch under its own schedule. *)
Fixpoint forAwaitAll (schedules : list (list nat)) (ev : ISubscriptionEvent)
    (batches : list (list ISubscriber)) (w : World) : option (Outcome unit) * World :=
  match batches with
  | [] => (Some (Resolved tt), w)
  | subscribers :: rest =>
      match promiseAll (hd [] schedules) ev subscribers w with
      | (Some (Resolved _), w') => forAwaitAll (tl schedules) ev rest w'
      | (Some (Rejected e), w') => (Some (Rejected e), w')
      | (None, w') => (None, w')
      end
  end.

(** The handler of [createHandler], with the branches interleaved as the
    schedules say. *)
Definition handlerUnder (schedules : list (list nat)) (subs : Subscriptions)
    (ev : ISubscriptionEvent) (w : World) : option (Outcome unit) * World :=
  forAwaitAll schedules ev (subscribersByEvent getSubscriptionNameFromEvent subs ev) w.

End Concurrent.

(** A schedule that resumes each of [n] branches at least three times lets
    every branch reach its end. *)
Definition thorough (schedule : list nat) (n : nat) : Prop :=
  ∀ i, i < n → 3 ≤ length (filter (λ j, j = i) schedule).

(** ** What holds of a pool at every moment *)

Section PoolInvariant.

Variable transport : ApiGatewayManagementApi -> string -> string -> option Thrown.
Variable GraphQLServerOptions : Type.
Variable createGraphQLServerOptions :
  ISubscriptionEvent -> IConnection -> OperationRequest -> Outcome GraphQLServerOptions.
Variable execute :
  GraphQLServerOptions -> ISubscriptionEvent -> IConnection -> OperationRequest ->
  Outcome ExecuteOutput.
Variable formatMessage : OperationMessage -> string.
Variable GQL_DATA : string.
Variable onError : Thrown -> option Thrown.

(** How the promise of [promise.catch(this.onError)] settles on [e]. *)
Definition handled (e : Thrown) : Outcome unit :=
  match onError e with
  | None => Resolved tt
  | Some e' => Rejected e'
  end.

(** The execution of [s] had a result and the network answered its post
    (through whichever client was in use) with [answer]. *)
Definition answered (ev : ISubscriptionEvent) (s : ISubscriber)
    (answer : option Thrown) : Prop :=
  ∃ value client,
    executionOf GraphQLServerOptions createGraphQLServerOptions execute ev s
      = Result value
    ∧ transport client (id (connection s)) (envelope formatMessage GQL_DATA s value)
      = answer.

(** A branch's stage agrees with what its execution and its post came to. *)
Definition coherent (ev : ISubscriptionEvent) (w : World)
    (b : ISubscriber * Stage) : Prop :=
  match b.2 with
  | Started => True
  | Posting (Resolved _) => answered ev b.1 None
  | Posting (Rejected e) => answered ev b.1 (Some e)
  | Rejecting false e =>
      executionOf GraphQLServerOptions createGraphQLServerOptions execute ev b.1
      = ExecutionFailed e
  | Rejecting true e => answered ev b.1 (Some e) ∧ isStale e = false
  | Settled Delivered o => o = Resolved tt ∧ answered ev b.1 None
  | Settled Pruned o =>
      o = Resolved tt
      ∧ (∃ e, answered ev b.1 (Some e) ∧ isStale e = true)
      ∧ connections w !! id (connection b.1) = None
  | Settled Skipped o =>
      o = Resolved tt
      ∧ executionOf GraphQLServerOptions createGraphQLServerOptions execute ev b.1
        = NoResult
  | Settled (FailedBeforeSend e) o =>
      o = handled e
      ∧ executionOf GraphQLServerOptions createGraphQLServerOptions execute ev b.1
        = ExecutionFailed e
  | Settled (FailedInSend e) o =>
      o = handled e ∧ answered ev b.1 (Some e) ∧ isStale e = false
  end.

Definition hasPosted (stage : Stage) : bool :=
  match stage with
  | Started => false
  | Posting _ => true
  | Rejecting inSend _ => inSend
  | Settled b _ => sent b
  end.

(** The request a branch has issued so far, and the error it has handed to
    [onError] so far. *)
Definition postOf (ev : ISubscriptionEvent) (b : ISubscriber * Stage)
  : list (string * string) :=
  if hasPosted b.2
  then option_list
         (deliveryOf GraphQLServerOptions createGraphQLServerOptions execute
            formatMessage GQL_DATA ev b.1)
  else [].

Definition reportOf (b : ISubscriber * Stage) : list Thrown :=
  match b.2 with
  | Settled c _ => option_list (failure c)
  | _ => []
  end.

Definition poolInvariant (ev : ISubscriptionEvent) (subscribers : list ISubscriber)
    (w0 : World) (p : Pool) : Prop :=
  fst <$> branches p = subscribers
  ∧ Forall (coherent ev (world p)) (branches p)
  ∧ (∃ new, posted (world p) = posted w0 ++ new
            ∧ (λ r, (ConnectionId r, Data r)) <$> new
              ≡ₚ concat (postOf ev <$> branches p))
  ∧ (∃ new, reported (world p) = reported w0 ++ new
            ∧ new ≡ₚ concat (reportOf <$> branches p))
  ∧ match rejection p with
    | None => Forall (λ b, ∀ c e, b.2 ≠ Settled c (Rejected e)) (branches p)
    | Some e => ∃ s c, (s, Settled c (Rejected e)) ∈ branches p
    end.

End PoolInvariant.

(** The awaits a branch still has before it. *)
Definition rank (stage : Stage) : nat :=
  match stage with
  | Started => 3
  | Posting _ => 2
  | Rejecting _ _ => 1
  | Settled _ _ => 0
  end.

(** The schedule that takes the branches in array order and lets each run
    through its three stretches before the next starts. *)
Definition arrayOrder (first n : nat) : list nat :=
  seq first n ≫= λ i, [i; i; i].

(** ** Sample data *)

Module Sample.

Definition connectionAt (cid ep : string) : IConnection :=
  {| id := cid; data := {| endpoint := ep; context := []; isInitialized := true |} |}.

Definition operationWith (opId : string) : OperationRequest :=
  {| query := "subscription { messageFeed { text } }"; variables := [];
     operationName := None; op_operationId := opId |}.

Definition subscriber (cid ep name opId : string) : ISubscriber :=
  {| connection := connectionAt cid ep; operation := operationWith opId;
     event := name; operationId := opId |}.

Definition c1 : IConnection := connectionAt "c1" "wss://one.example".
Definition c2 : IConnection := connectionAt "c2" "wss://two.example".

Definition chat : ISubscriptionEvent :=
  {| ev_event := "chat"; ev_payload := "{}" |}.

Definition s1 : ISubscriber := subscriber "c1" "wss://one.example" "chat" "1".
Definition s2 : ISubscriber := subscriber "c2" "wss://two.example" "chat" "1".
Definition s1news : ISubscriber := subscriber "c1" "wss://one.example" "news" "2".

(** c1 listens to "chat" (operation 1) and "news" (operation 2); c2 listens
    to "chat" under its own operation 1. *)
Definition index : Subscriptions :=
  <["news" := [s1news]]> (<["chat" := [s1; s2]]> ∅).

(** A registry holding both connections; no transport client built yet. *)
Definition fresh : World :=
  {| apiGatewayManager := None;
     connections := <["c2" := c2]> (<["c1" := c1]> ∅);
     posted := []; reported := [] |}.

Definition gone : Thrown := ThrownError (Some 410%Z) "GoneException".
Definition denied : Thrown := ThrownError (Some 403%Z) "ForbiddenException".

(** A network on which posts to connection [cid] are rejected with [e]. *)
Definition failingFor (cid : string) (e : Thrown)
  : ApiGatewayManagementApi -> string -> string -> option Thrown :=
  λ _ connectionId _, if decide (connectionId = cid) then Some e else None.

(** Collaborators of the event processor. *)
Definition options : Type := unit.

Definition createOptions
  : ISubscriptionEvent -> IConnection -> OperationRequest -> Outcome options :=
  λ _ _ _, Resolved tt.

Definition echo (ev : ISubscriptionEvent) : ExecutionResult :=
  {| result_data := Some (ev_payload ev); result_errors := [] |}.

(** Every operation yields the event's payload. *)
Definition executeEcho
  : options -> ISubscriptionEvent -> IConnection -> OperationRequest ->
    Outcome ExecuteOutput :=
  λ _ ev _ _, Resolved (AsyncIterable (Resolved (Some (echo ev)))).

(** The filter lets nothing through: the iterator's first value is null. *)
Definition executeNothing
  : options -> ISubscriptionEvent -> IConnection -> OperationRequest ->
    Outcome ExecuteOutput :=
  λ _ _ _ _, Resolved (AsyncIterable (Resolved None)).

Definition resolverError : Thrown := ThrownError None "resolver failed".

(** The operation of connection [cid] fails; the others yield the payload. *)
Definition executeFailingFor (cid : string)
  : options -> ISubscriptionEvent -> IConnection -> OperationRequest ->
    Outcome ExecuteOutput :=
  λ _ ev conn _,
    if decide (id conn = cid) then Rejected resolverError
    else Resolved (AsyncIterable (Resolved (Some (echo ev)))).

Definition format (m : OperationMessage) : string :=
  type m +:+ ":" +:+ message_id m +:+ ":" +:+ default "null" (result_data (payload m)).

Definition reliable : ApiGatewayManagementApi -> string -> string -> option Thrown :=
  λ _ _ _, None.

Definition quiet : Thrown -> option Thrown := λ _, None.
Definition rethrowing : Thrown -> option Thrown := λ e, Some e.

(** Only c1 listens to "chat". *)
Definition solo : Subscriptions := <["chat" := [s1]]> ∅.

(** Four listeners on "chat", for dispatches with every kind of ending. *)
Definition c3 : IConnection := connectionAt "c3" "wss://three.example".
Definition c4 : IConnection := connectionAt "c4" "wss://four.example".
Definition s3 : ISubscriber := subscriber "c3" "wss://three.example" "chat" "1".
Definition s4 : ISubscriber := subscriber "c4" "wss://four.example" "chat" "1".

Definition crowd : Subscriptions := <["chat" := [s1; s2; s3; s4]]> ∅.

Definition crowded : World :=
  {| apiGatewayManager := None;
     connections := <["c4" := c4]> (<["c3" := c3]> (<["c2" := c2]> (<["c1" := c1]> ∅)));
     posted := []; reported := [] |}.

(** c2's filter lets nothing through, c3's resolver fails, the others yield
    the payload. *)
Definition executeMixed
  : options -> ISubscriptionEvent -> IConnection -> OperationRequest ->
    Outcome ExecuteOutput :=
  λ _ ev conn _,
    if decide (id conn = "c2") then Resolved (AsyncIterable (Resolved None))
    else if decide (id conn = "c3") then Rejected resolverError
    else Resolved (AsyncIterable (Resolved (Some (echo ev)))).

(** An order in which the event loop may resume four branches: the last
    one reaches its send first. *)
Definition shuffled : list nat := [3; 1; 0; 2; 2; 0; 3; 1; 1; 3; 0; 2].

End Sample.

(** * Theorems *)

(** ** The loops over all keys *)

Lemma lookup_foldl_refilter keep (l : list string) (subs : Subscriptions) k :
  NoDup l →
  foldl (refilter keep) subs l !! k =
    if decide (k ∈ l) then Some (keep (default [] (subs !! k))) else subs !! k.
Proof.
  intros Hnd. revert subs. induction Hnd as [|a l Ha Hnd IH]; intros subs; cbn [foldl].
  - by rewrite decide_False by apply not_elem_of_nil.
  - rewrite IH. unfold refilter.
    destruct (decide (k ∈ l)) as [Hk|Hk].
    + rewrite decide_True by (by apply list_elem_of_further).
      rewrite lookup_insert_ne; [done|]. intros ->. done.
    + destruct (decide (k = a)) as [->|Hne].
      * rewrite decide_True by apply list_elem_of_here. by rewrite lookup_insert_eq.
      * rewrite decide_False by (by intros [?|?]%elem_of_cons).
        by rewrite lookup_insert_ne.
Qed.

Lemma refilter_all keep (subs : Subscriptions) :
  foldl (refilter keep) subs (keys subs) = keep <$> subs.
Proof.
  apply map_eq. intros k. rewrite lookup_fmap.
  rewrite lookup_foldl_refilter by apply NoDup_fst_map_to_list.
  unfold keys. destruct (subs !! k) as [l|] eqn:Hk; simpl.
  - rewrite decide_True; [done|].
    apply list_elem_of_fmap. exists (k, l). split; [done|].
    by apply elem_of_map_to_list.
  - rewrite decide_False; [done|].
    intros [[k' l] [-> Hin]]%list_elem_of_fmap.
    apply elem_of_map_to_list in Hin. simpl in *. congruence.
Qed.

Lemma lookup_unsubscribeAllByConnectionId cid (subs : Subscriptions) k :
  unsubscribeAllByConnectionId cid subs !! k =
    filter (λ s, id (connection s) = cid) <$> subs !! k.
Proof. unfold unsubscribeAllByConnectionId. by rewrite refilter_all, lookup_fmap. Qed.

Lemma lookup_unsubscribeOperation cid opId (subs : Subscriptions) k :
  unsubscribeOperation cid opId subs !! k =
    filter (λ s, id (connection s) ≠ cid ∧ operationId s ≠ opId) <$> subs !! k.
Proof. unfold unsubscribeOperation. by rewrite refilter_all, lookup_fmap. Qed.


(** ** Removing subscriptions *)

(** C1, at a concrete index: after [unsubscribeAllByConnectionId "c1"], the
    batch for the "chat" event still holds c1's subscriber, and it is c2's,
    of another connection, that is gone. *)
Theorem unsubscribeAllByConnectionId_keeps_connection :
  subscribersByEvent defaultNameFromEvent
    (unsubscribeAllByConnectionId "c1" Sample.index) Sample.chat
  = [[Sample.s1]].
Proof.
  unfold subscribersByEvent. rewrite lookup_unsubscribeAllByConnectionId.
  vm_compute. reflexivity.
Qed.

(** C2, at a concrete index: [unsubscribeOperation "c1" "1"] empties every
    list: it also drops c1's other operation ("2", under "news") and c2's
    subscriber, whose operation id happens to be "1" as well. *)
Theorem unsubscribeOperation_removes_too_much :
  unsubscribeOperation "c1" "1" Sample.index
  = <["news" := []]> (<["chat" := []]> ∅).
Proof.
  apply map_eq. intros k. rewrite lookup_unsubscribeOperation.
  unfold Sample.index.
  destruct (decide (k = "news")) as [->|Hn].
  - rewrite !lookup_insert_eq. reflexivity.
  - rewrite !(lookup_insert_ne _ "news") by done.
    destruct (decide (k = "chat")) as [->|Hc].
    + rewrite !lookup_insert_eq. reflexivity.
    + rewrite !(lookup_insert_ne _ "chat") by done. by rewrite lookup_empty.
Qed.

(** What the code does in general: the batch after
    [unsubscribeAllByConnectionId] is the part of the old batch that belongs
    to the connection. *)
Lemma subscribersByEvent_unsubscribeAllByConnectionId nameFromEvent cid
    (subs : Subscriptions) ev :
  subscribersByEvent nameFromEvent (unsubscribeAllByConnectionId cid subs) ev
  = (filter (λ s, id (connection s) = cid)) <$> subscribersByEvent nameFromEvent subs ev.
Proof.
  unfold subscribersByEvent. rewrite lookup_unsubscribeAllByConnectionId.
  cbn [fmap list_fmap]. f_equal.
  destruct (subs !! nameFromEvent ev) as [l|]; cbn [fmap option_fmap option_map from_option Datatypes.id].
  - rewrite !list_filter_filter. apply list_filter_iff. tauto.
  - done.
Qed.

(** ** Subscribing *)

Section Subscribe.

Variable getSubscriptionNameFromConnection : string -> IConnection -> string.

Local Abbreviation subscribe_name := (subscribe_name getSubscriptionNameFromConnection).
Local Abbreviation subscribe := (subscribe getSubscriptionNameFromConnection).
Local Abbreviation key := getSubscriptionNameFromConnection.

Lemma find_connection_None conn (l : list ISubscriber) :
  List.find (λ s, bool_decide (id (connection s) = id conn)) l = None
  ↔ id conn ∉ (λ s, id (connection s)) <$> l.
Proof.
  induction l as [|s l IH]; cbn [List.find fmap list_fmap].
  - split; [intros _; apply not_elem_of_nil | done].
  - rewrite not_elem_of_cons. case_bool_decide as Hs.
    + split; [done | intros [Hne _]; congruence].
    + rewrite IH. split; [intros ?; split; [congruence | done] | tauto].
Qed.

(** Under the key it computes, [subscribe_name] appends the connection's id
    when it is not there yet; everything else stays as it is. *)
Lemma subscribe_name_spec conn op (subs : Subscriptions) n :
  let name := key n conn in
  let subscription :=
    {| connection := conn; operation := op; event := name;
       operationId := op_operationId op |} in
  subscribe_name conn op subs n =
    if decide (id conn ∈ connectionIds subs name) then subs
    else <[name := default [] (subs !! name) ++ [subscription]]> subs.
Proof.
  intros name subscription. unfold subscribe_name, connectionIds. fold name.
  destruct (subs !! name) as [l|] eqn:Hl; cbn [from_option Datatypes.id].
  - destruct (List.find _ l) as [s|] eqn:Hfind.
    + rewrite decide_True; [done|].
      destruct (decide (id conn ∈ (λ s, id (connection s)) <$> l)) as [|Hno]; [done|].
      apply find_connection_None in Hno. congruence.
    + rewrite decide_False; [done|]. by apply find_connection_None.
  - rewrite decide_False; [done | apply not_elem_of_nil].
Qed.

Lemma connectionIds_subscribe_name conn op (subs : Subscriptions) n k :
  connectionIds (subscribe_name conn op subs n) k =
    if decide (k = key n conn ∧ id conn ∉ connectionIds subs k)
    then connectionIds subs k ++ [id conn]
    else connectionIds subs k.
Proof.
  rewrite subscribe_name_spec. cbv zeta.
  destruct (decide (id conn ∈ connectionIds subs (key n conn))) as [Hin|Hout].
  - rewrite decide_False; [done|]. intros [-> ?]. done.
  - destruct (decide (k = key n conn)) as [->|Hne].
    + rewrite decide_True by done. unfold connectionIds at 1.
      rewrite lookup_insert_eq. cbn [from_option Datatypes.id]. by rewrite fmap_app.
    + rewrite decide_False by tauto. unfold connectionIds.
      by rewrite lookup_insert_ne.
Qed.

Lemma connectionIds_subscribe_name_mono conn op (subs : Subscriptions) n k cid :
  cid ∈ connectionIds subs k → cid ∈ connectionIds (subscribe_name conn op subs n) k.
Proof.
  intros Hin. rewrite connectionIds_subscribe_name.
  case_decide; [apply elem_of_app; by left | done].
Qed.

Lemma connectionIds_subscribe_name_here conn op (subs : Subscriptions) n :
  id conn ∈ connectionIds (subscribe_name conn op subs n) (key n conn).
Proof.
  rewrite connectionIds_subscribe_name.
  destruct (decide (id conn ∈ connectionIds subs (key n conn))) as [Hin|Hout].
  - by rewrite decide_False by tauto.
  - rewrite decide_True by done. apply elem_of_app. right. apply list_elem_of_here.
Qed.

Lemma connectionIds_subscribe_mono names conn op (subs : Subscriptions) k cid :
  cid ∈ connectionIds subs k → cid ∈ connectionIds (subscribe names conn op subs) k.
Proof.
  revert subs. unfold subscribe.
  induction names as [|n names IH]; intros subs Hin; cbn [foldl]; [done|].
  by apply IH, connectionIds_subscribe_name_mono.
Qed.

Lemma connectionIds_subscribe_here names conn op (subs : Subscriptions) n :
  n ∈ names → id conn ∈ connectionIds (subscribe names conn op subs) (key n conn).
Proof.
  revert subs. unfold subscribe.
  induction names as [|m names IH]; intros subs Hn; cbn [foldl].
  - by apply elem_of_nil in Hn.
  - apply elem_of_cons in Hn as [->|Hn]; [|by apply IH].
    apply (connectionIds_subscribe_mono names), connectionIds_subscribe_name_here.
Qed.

End Subscribe.

(** ** Invariants of the index *)

Lemma onePerConnection_connectionIds (subs : Subscriptions) :
  onePerConnection subs ↔ ∀ k, NoDup (connectionIds subs k).
Proof.
  unfold onePerConnection, connectionIds. split.
  - intros H k. destruct (subs !! k) as [l|] eqn:Hk; [by apply (H k) | apply NoDup_nil_2].
  - intros H k l Hk. specialize (H k). by rewrite Hk in H.
Qed.

Lemma onePerConnection_empty : onePerConnection ∅.
Proof. intros k l Hk. by rewrite lookup_empty in Hk. Qed.

Lemma keyedByEvent_empty : keyedByEvent ∅.
Proof. intros k l Hk. by rewrite lookup_empty in Hk. Qed.

Lemma Forall_filter_keep {A} (Q P : A → Prop) `{!∀ x, Decision (P x)} (l : list A) :
  Forall Q l → Forall Q (filter P l).
Proof.
  rewrite !Forall_forall. intros HQ x [_ Hx]%list_elem_of_filter. by apply HQ.
Qed.

Lemma filter_all {A} (P : A → Prop) `{!∀ x, Decision (P x)} (l : list A) :
  Forall P l → filter P l = l.
Proof.
  induction 1 as [|x l Hx _ IH]; [done|].
  by rewrite filter_cons, decide_True, IH.
Qed.

Lemma NoDup_connection_filter (P : ISubscriber → Prop) `{!∀ s, Decision (P s)}
    (l : list ISubscriber) :
  NoDup ((λ s, id (connection s)) <$> l) →
  NoDup ((λ s, id (connection s)) <$> filter P l).
Proof.
  induction l as [|s l IH]; [done|].
  rewrite fmap_cons, NoDup_cons. intros [Hs Hl].
  rewrite filter_cons. case_decide; [|by apply IH].
  rewrite fmap_cons, NoDup_cons. split; [|by apply IH].
  intros (s' & Heq & [_ Hin]%list_elem_of_filter)%list_elem_of_fmap.
  apply Hs, list_elem_of_fmap. by exists s'.
Qed.

Lemma onePerConnection_fmap_filter (P : ISubscriber → Prop) `{!∀ s, Decision (P s)}
    (subs : Subscriptions) :
  onePerConnection subs → onePerConnection (filter P <$> subs).
Proof.
  intros Hone k l. rewrite lookup_fmap.
  destruct (subs !! k) as [l0|] eqn:Hk; [|done].
  intros [= <-]. by apply NoDup_connection_filter, (Hone k).
Qed.

Lemma keyedByEvent_fmap_filter (P : ISubscriber → Prop) `{!∀ s, Decision (P s)}
    (subs : Subscriptions) :
  keyedByEvent subs → keyedByEvent (filter P <$> subs).
Proof.
  intros Hkeyed k l. rewrite lookup_fmap.
  destruct (subs !! k) as [l0|] eqn:Hk; [|done].
  intros [= <-]. by apply Forall_filter_keep, (Hkeyed k).
Qed.

Lemma onePerConnection_unsubscribe subscriber (subs : Subscriptions) :
  onePerConnection subs → onePerConnection (unsubscribe subscriber subs).
Proof.
  intros H. unfold unsubscribe.
  destruct (subs !! event subscriber) as [l0|] eqn:Hk; [|done].
  intros k l. destruct (decide (k = event subscriber)) as [->|Hne].
  - rewrite lookup_insert_eq. intros [= <-]. by apply NoDup_connection_filter, (H _ _ Hk).
  - rewrite lookup_insert_ne by done. apply H.
Qed.

Lemma keyedByEvent_unsubscribe subscriber (subs : Subscriptions) :
  keyedByEvent subs → keyedByEvent (unsubscribe subscriber subs).
Proof.
  intros H. unfold unsubscribe.
  destruct (subs !! event subscriber) as [l0|] eqn:Hk; [|done].
  intros k l. destruct (decide (k = event subscriber)) as [->|Hne].
  - rewrite lookup_insert_eq. intros [= <-]. by apply Forall_filter_keep, (H _ _ Hk).
  - rewrite lookup_insert_ne by done. apply H.
Qed.

Section SubscribeInvariants.

Variable getSubscriptionNameFromConnection : string -> IConnection -> string.

Lemma onePerConnection_subscribe_name conn op (subs : Subscriptions) n :
  onePerConnection subs →
  onePerConnection (subscribe_name getSubscriptionNameFromConnection conn op subs n).
Proof.
  rewrite !onePerConnection_connectionIds. intros H k.
  rewrite connectionIds_subscribe_name. case_decide as Hk; [|done].
  apply NoDup_app. split; [done|]. split; [|apply NoDup_singleton].
  intros x Hx ->%list_elem_of_singleton. tauto.
Qed.

Lemma onePerConnection_subscribe names conn op (subs : Subscriptions) :
  onePerConnection subs →
  onePerConnection (subscribe getSubscriptionNameFromConnection names conn op subs).
Proof.
  revert subs. unfold subscribe.
  induction names as [|n names IH]; intros subs H; cbn [foldl]; [done|].
  by apply IH, onePerConnection_subscribe_name.
Qed.

Lemma keyedByEvent_subscribe_name conn op (subs : Subscriptions) n :
  keyedByEvent subs →
  keyedByEvent (subscribe_name getSubscriptionNameFromConnection conn op subs n).
Proof.
  intros H. rewrite subscribe_name_spec. cbv zeta. case_decide; [done|].
  intros k l. destruct (decide (k = getSubscriptionNameFromConnection n conn)) as [->|Hne].
  - rewrite lookup_insert_eq. intros [= <-]. apply Forall_app. split.
    + destruct (subs !! _) as [l0|] eqn:Hk; [by apply (H _ _ Hk) | apply Forall_nil_2].
    + by apply Forall_singleton.
  - rewrite lookup_insert_ne by done. apply H.
Qed.

Lemma keyedByEvent_subscribe names conn op (subs : Subscriptions) :
  keyedByEvent subs →
  keyedByEvent (subscribe getSubscriptionNameFromConnection names conn op subs).
Proof.
  revert subs. unfold subscribe.
  induction names as [|n names IH]; intros subs H; cbn [foldl]; [done|].
  by apply IH, keyedByEvent_subscribe_name.
Qed.

(** Every index the manager builds from an empty map satisfies both
    invariants, whatever mix of its operations built it. *)
Lemma reachable_invariants (subs : Subscriptions) :
  reachable getSubscriptionNameFromConnection subs →
  onePerConnection subs ∧ keyedByEvent subs.
Proof.
  induction 1 as [|names conn op subs _ [IH1 IH2]|subscriber subs _ [IH1 IH2]
                  |cid opId subs _ [IH1 IH2]|cid subs _ [IH1 IH2]].
  - split; [apply onePerConnection_empty | apply keyedByEvent_empty].
  - split; [by apply onePerConnection_subscribe | by apply keyedByEvent_subscribe].
  - split; [by apply onePerConnection_unsubscribe | by apply keyedByEvent_unsubscribe].
  - unfold unsubscribeOperation. rewrite refilter_all.
    split; [by apply onePerConnection_fmap_filter | by apply keyedByEvent_fmap_filter].
  - unfold unsubscribeAllByConnectionId. rewrite refilter_all.
    split; [by apply onePerConnection_fmap_filter | by apply keyedByEvent_fmap_filter].
Qed.

End SubscribeInvariants.

Lemma entries_absent cid (l : list ISubscriber) :
  cid ∉ (λ s, id (connection s)) <$> l →
  filter (λ s, id (connection s) = cid) l = [].
Proof.
  intros Hout. apply elem_of_nil_inv. intros s [Hs Hin]%list_elem_of_filter.
  apply Hout, list_elem_of_fmap. by exists s.
Qed.

Lemma entries_single cid (l : list ISubscriber) :
  NoDup ((λ s, id (connection s)) <$> l) →
  cid ∈ (λ s, id (connection s)) <$> l →
  length (filter (λ s, id (connection s) = cid) l) = 1.
Proof.
  induction l as [|s l IH]; [by intros _ ?%elem_of_nil|].
  rewrite fmap_cons, NoDup_cons. intros [Hs Hl] Hin.
  rewrite filter_cons. case_decide as Hcid.
  - subst cid. by rewrite entries_absent.
  - apply elem_of_cons in Hin as [Heq|Hin]; [congruence | by apply IH].
Qed.

Section SubscribeClaims.

Variable getSubscriptionNameFromConnection : string -> IConnection -> string.

Local Abbreviation subscribe := (subscribe getSubscriptionNameFromConnection).
Local Abbreviation key := getSubscriptionNameFromConnection.

(** C5: [subscribe] keeps the index at one subscriber per connection id
    under every key; each requested name then holds exactly one entry of the
    connection, also when the call is repeated (with any operation); and on
    an empty list of names the call returns with the index as it was. *)
Theorem subscribe_one_per_connection names conn op (subs : Subscriptions) :
  onePerConnection subs →
  onePerConnection (subscribe names conn op subs)
  ∧ (∀ n, n ∈ names →
       length (entriesOf (subscribe names conn op subs) (key n conn) (id conn)) = 1)
  ∧ (∀ n op',
       length (entriesOf (subscribe [n] conn op' (subscribe [n] conn op subs))
                 (key n conn) (id conn)) = 1)
  ∧ subscribe [] conn op subs = subs.
Proof.
  intros Hone. split; [by apply onePerConnection_subscribe|].
  split; [|split; [|done]].
  - intros n Hn. apply entries_single.
    + apply onePerConnection_connectionIds. by apply onePerConnection_subscribe.
    + by apply connectionIds_subscribe_here.
  - intros n op'. apply entries_single.
    + apply onePerConnection_connectionIds.
      by do 2 apply onePerConnection_subscribe.
    + apply connectionIds_subscribe_here, list_elem_of_here.
Qed.

(** C10: when the connection already holds a subscriber under the key of
    every requested name, [subscribe] returns the index unchanged, whatever
    operation and operationId the call carries. *)
Theorem subscribe_existing_unchanged names conn op (subs : Subscriptions) :
  (∀ n, n ∈ names →
     ∃ s, s ∈ default [] (subs !! key n conn) ∧ id (connection s) = id conn) →
  subscribe names conn op subs = subs.
Proof.
  unfold subscribe.
  induction names as [|n names IH]; intros Hheld; cbn [foldl]; [done|].
  rewrite subscribe_name_spec. cbv zeta. rewrite decide_True.
  - apply IH. intros m Hm. apply Hheld. by apply list_elem_of_further.
  - destruct (Hheld n) as (s & Hs & Hid); [apply list_elem_of_here|].
    apply list_elem_of_fmap. by exists s.
Qed.

End SubscribeClaims.

(** C7: on an index whose subscribers are filed under their own [event]
    (every index the manager builds is), [subscribersByEvent] is the sequence
    of one batch, the list stored under the key of the event, or the empty
    list when the key has no entry; the first [next()] returns that batch and
    the second reports the end. *)
Theorem subscribersByEvent_single_batch nameFromEvent (subs : Subscriptions) ev :
  keyedByEvent subs →
  let batch := default [] (subs !! nameFromEvent ev) in
  let iterator := subscribersByEvent nameFromEvent subs ev in
  iterator = [batch]
  ∧ (iterator_next iterator).1 = Some batch
  ∧ (iterator_next (iterator_next iterator).2).1 = None.
Proof.
  intros Hkeyed batch iterator.
  assert (iterator = [batch]) as ->; [|done].
  unfold iterator, batch, subscribersByEvent. f_equal.
  destruct (subs !! nameFromEvent ev) as [l|] eqn:Hl; cbn [from_option Datatypes.id]; [|done].
  apply filter_all, (Hkeyed _ _ Hl).
Qed.

Lemma subscribersByEvent_reachable nameFromEvent nameFromConnection
    (subs : Subscriptions) ev :
  reachable nameFromConnection subs →
  subscribersByEvent nameFromEvent subs ev = [default [] (subs !! nameFromEvent ev)].
Proof.
  intros [_ Hkeyed]%reachable_invariants.
  unfold subscribersByEvent. f_equal.
  destruct (subs !! nameFromEvent ev) as [l|] eqn:Hl; cbn [from_option Datatypes.id]; [|done].
  apply filter_all, (Hkeyed _ _ Hl).
Qed.

Lemma Sample_index_keyed : keyedByEvent Sample.index.
Proof.
  intros k l. unfold Sample.index.
  destruct (decide (k = "news")) as [->|Hn].
  - rewrite lookup_insert_eq. intros [= <-]. by repeat constructor.
  - rewrite lookup_insert_ne by done.
    destruct (decide (k = "chat")) as [->|Hc].
    + rewrite lookup_insert_eq. intros [= <-]. by repeat constructor.
    + rewrite lookup_insert_ne by done. by rewrite lookup_empty.
Qed.

Lemma subscribe_one_per_connection_witness :
  onePerConnection ∅
  ∧ length (entriesOf
              (subscribe defaultNameFromConnection ["chat"; "chat"] Sample.c1
                 (Sample.operationWith "1") ∅)
              "chat" "c1") = 1.
Proof.
  split; [apply onePerConnection_empty|].
  apply (subscribe_one_per_connection defaultNameFromConnection ["chat"; "chat"]
           Sample.c1 (Sample.operationWith "1") ∅ onePerConnection_empty).
Defined.

Lemma subscribe_existing_unchanged_witness :
  (∃ s, s ∈ default [] (Sample.index !! "chat") ∧ id (connection s) = "c1")
  ∧ subscribe defaultNameFromConnection ["chat"] Sample.c1 (Sample.operationWith "9")
      Sample.index = Sample.index.
Proof.
  assert (∃ s, s ∈ default [] (Sample.index !! "chat") ∧ id (connection s) = "c1") as Hheld.
  { exists Sample.s1. split; [|reflexivity]. vm_compute. apply list_elem_of_here. }
  split; [exact Hheld|].
  apply (subscribe_existing_unchanged defaultNameFromConnection).
  intros n ->%list_elem_of_singleton. exact Hheld.
Defined.

Lemma subscribersByEvent_single_batch_witness :
  keyedByEvent Sample.index
  ∧ subscribersByEvent defaultNameFromEvent Sample.index Sample.chat
    = [[Sample.s1; Sample.s2]].
Proof.
  split; [apply Sample_index_keyed|].
  exact (proj1 (subscribersByEvent_single_batch defaultNameFromEvent Sample.index
                  Sample.chat Sample_index_keyed)).
Defined.

(** ** The connection registry *)

(** C6: [hydrateConnection] rejects exactly when no record is stored under the
    id, and then with [ConnectionNotFoundError]; when a record is stored it
    resolves with that record; the registry is left as it was either way. *)
Theorem hydrateConnection_found_or_raises (connectionId : string) (w : World) :
  (∀ e, (hydrateConnection connectionId w).1 = Rejected e
        ↔ connections w !! connectionId = None
          ∧ e = ConnectionNotFoundError (notFoundMessage connectionId))
  ∧ (∀ c, connections w !! connectionId = Some c
          ↔ (hydrateConnection connectionId w).1 = Resolved c)
  ∧ (hydrateConnection connectionId w).2 = w.
Proof.
  unfold hydrateConnection.
  destruct (connections w !! connectionId) as [c|]; cbn [fst snd].
  - split; [|split; [|done]].
    + intros e. split; [done | by intros [? _]].
    + intros c'. split; congruence.
  - split; [|split; [|done]].
    + intros e. split; [by intros [= <-] | by intros [_ ->]].
    + intros c'. split; congruence.
Qed.

Section Sending.

Variable transport : ApiGatewayManagementApi -> string -> string -> option Thrown.

Lemma createApiGatewayManager_spec ep conn (w : World) :
  ep = endpoint (data conn) →
  createApiGatewayManager ep w =
    (Resolved (clientFor (apiGatewayManager w) conn),
     set_apiGatewayManager (Some (clientFor (apiGatewayManager w) conn)) w).
Proof.
  intros ->. unfold createApiGatewayManager, clientFor.
  destruct w as [[client|] conns ps rs]; reflexivity.
Qed.

(** One [sendToConnection], step by step: the client is fetched or built,
    the request is issued through it, and the rejection, if any, is sorted
    by [isStale]. *)
Lemma sendToConnection_spec conn payload (w : World) :
  let client := clientFor (apiGatewayManager w) conn in
  let request := {| via := client; ConnectionId := id conn; Data := payload |} in
  let w1 := log_posted request (set_apiGatewayManager (Some client) w) in
  sendToConnection transport conn payload w =
    match transport client (id conn) payload with
    | None => (Resolved tt, w1)
    | Some e =>
        if isStale e
        then (Resolved tt, set_connections (delete (id conn) (connections w1)) w1)
        else (Rejected e, w1)
    end.
Proof.
  intros client request w1.
  unfold sendToConnection, catch, mbind, Async_bind.
  rewrite (createApiGatewayManager_spec _ conn) by done.
  unfold postToConnection. fold client. fold request. fold w1.
  destruct (transport client (id conn) payload) as [e|]; [|done].
  by destruct (isStale e).
Qed.

Lemma isStale_statusCode e : isStale e = true ↔ statusCode e = Some 410%Z.
Proof.
  destruct e; cbn [isStale statusCode]; [done|..]; by rewrite bool_decide_eq_true.
Qed.

(** C4: when the post is rejected with status code 410 the send resolves and
    the connection's record is gone from the registry; when it is rejected
    with anything else the send rejects with that same error (and the
    registry keeps its records). *)
Theorem sendToConnection_failed_post conn payload (w : World) e :
  transport (clientFor (apiGatewayManager w) conn) (id conn) payload = Some e →
  (statusCode e = Some 410%Z →
     (sendToConnection transport conn payload w).1 = Resolved tt
     ∧ connections (sendToConnection transport conn payload w).2
       = delete (id conn) (connections w)
     ∧ connections (sendToConnection transport conn payload w).2 !! id conn = None)
  ∧ (statusCode e ≠ Some 410%Z →
     (sendToConnection transport conn payload w).1 = Rejected e
     ∧ connections (sendToConnection transport conn payload w).2 = connections w).
Proof.
  intros Hpost. rewrite sendToConnection_spec. cbv zeta. rewrite Hpost.
  split.
  - intros Hcode%isStale_statusCode. rewrite Hcode. cbn [fst snd connections set_connections log_posted set_apiGatewayManager].
    split; [done|]. split; [done|]. apply lookup_delete_eq.
  - intros Hcode. destruct (isStale e) eqn:Hstale.
    + by apply isStale_statusCode in Hstale.
    + done.
Qed.

End Sending.

Section ClientReuse.

Variable transport : ApiGatewayManagementApi -> string -> string -> option Thrown.

Lemma sendToConnection_with_client conn payload (w : World) client :
  apiGatewayManager w = Some client →
  apiGatewayManager (sendToConnection transport conn payload w).2 = Some client
  ∧ posted (sendToConnection transport conn payload w).2
    = posted w ++ [{| via := client; ConnectionId := id conn; Data := payload |}].
Proof.
  intros Hclient. rewrite sendToConnection_spec. cbv zeta.
  rewrite Hclient. cbn [clientFor].
  destruct (transport client (id conn) payload) as [e|]; [destruct (isStale e)|]; done.
Qed.

Lemma sendEach_with_client messages (w : World) client :
  apiGatewayManager w = Some client →
  posted (sendEach transport messages w)
  = posted w ++
    ((λ m, {| via := client; ConnectionId := id m.1; Data := m.2 |}) <$> messages).
Proof.
  revert w. induction messages as [|[conn payload] rest IH]; intros w Hclient.
  - cbn [sendEach fmap list_fmap]. by rewrite app_nil_r.
  - cbn [sendEach].
    destruct (sendToConnection_with_client conn payload w client Hclient) as [Hc Hp].
    rewrite (IH _ Hc), Hp, <- app_assoc. done.
Qed.

(** C9: the first send builds the client from its connection's endpoint;
    from then on [createApiGatewayManager] returns that client whatever
    endpoint it is given, and every later send, to whichever connection,
    is posted through it. *)
Theorem first_client_is_reused first payload rest (w : World) :
  apiGatewayManager w = None →
  let client :=
    {| client_endpoint := endpoint (data first); apiVersion := "2018-11-29" |} in
  let w1 := (sendToConnection transport first payload w).2 in
  apiGatewayManager w1 = Some client
  ∧ (∀ ep, createApiGatewayManager ep w1 = (Resolved client, w1))
  ∧ posted (sendEach transport rest w1)
    = posted w
      ++ {| via := client; ConnectionId := id first; Data := payload |}
      :: ((λ m, {| via := client; ConnectionId := id m.1; Data := m.2 |}) <$> rest).
Proof.
  intros Hnone client w1.
  assert (apiGatewayManager w1 = Some client
          ∧ posted w1 = posted w
              ++ [{| via := client; ConnectionId := id first; Data := payload |}])
    as [Hc Hp].
  { unfold w1. rewrite sendToConnection_spec. cbv zeta.
    rewrite Hnone. cbn [clientFor]. fold client.
    destruct (transport client (id first) payload) as [e|]; [destruct (isStale e)|]; done. }
  split; [done|]. split.
  - intros ep. unfold createApiGatewayManager. by rewrite Hc.
  - rewrite (sendEach_with_client rest w1 client Hc), Hp, <- app_assoc. done.
Qed.

End ClientReuse.

Lemma sendToConnection_failed_post_witness :
  Sample.failingFor "c1" Sample.gone
    (clientFor (apiGatewayManager Sample.fresh) Sample.c1) (id Sample.c1) "hello"
    = Some Sample.gone
  ∧ (sendToConnection (Sample.failingFor "c1" Sample.gone) Sample.c1 "hello"
       Sample.fresh).1 = Resolved tt
  ∧ connections (sendToConnection (Sample.failingFor "c1" Sample.gone) Sample.c1 "hello"
                   Sample.fresh).2 !! "c1" = None
  ∧ (sendToConnection (Sample.failingFor "c1" Sample.denied) Sample.c1 "hello"
       Sample.fresh).1 = Rejected Sample.denied.
Proof.
  split; [reflexivity|].
  destruct (sendToConnection_failed_post (Sample.failingFor "c1" Sample.gone)
              Sample.c1 "hello" Sample.fresh Sample.gone eq_refl) as [Hstale _].
  destruct (Hstale eq_refl) as (Hresolved & _ & Habsent).
  destruct (sendToConnection_failed_post (Sample.failingFor "c1" Sample.denied)
              Sample.c1 "hello" Sample.fresh Sample.denied eq_refl) as [_ Hother].
  destruct Hother as [Hrejected _]; [discriminate|].
  split; [exact Hresolved|]. split; [exact Habsent | exact Hrejected].
Defined.

Lemma first_client_is_reused_witness :
  apiGatewayManager Sample.fresh = None
  ∧ via <$> posted (sendEach (Sample.failingFor "c1" Sample.gone)
                      [(Sample.c2, "to two"); (Sample.c1, "to one")]
                      (sendToConnection (Sample.failingFor "c1" Sample.gone)
                         Sample.c1 "hello" Sample.fresh).2)
    = replicate 3 {| client_endpoint := "wss://one.example"; apiVersion := "2018-11-29" |}.
Proof.
  split; [reflexivity|].
  rewrite (proj2 (proj2 (first_client_is_reused (Sample.failingFor "c1" Sample.gone)
                           Sample.c1 "hello"
                           [(Sample.c2, "to two"); (Sample.c1, "to one")]
                           Sample.fresh eq_refl))).
  reflexivity.
Defined.

(** ** Dispatch *)

Section Dispatch.

Variable getSubscriptionNameFromEvent : ISubscriptionEvent -> string.
Variable transport : ApiGatewayManagementApi -> string -> string -> option Thrown.
Variable GraphQLServerOptions : Type.
Variable createGraphQLServerOptions :
  ISubscriptionEvent -> IConnection -> OperationRequest -> Outcome GraphQLServerOptions.
Variable execute :
  GraphQLServerOptions -> ISubscriptionEvent -> IConnection -> OperationRequest ->
  Outcome ExecuteOutput.
Variable formatMessage : OperationMessage -> string.
Variable GQL_DATA : string.
Variable onError : Thrown -> option Thrown.

Local Abbreviation deliver :=
  (deliver transport GraphQLServerOptions createGraphQLServerOptions execute
     formatMessage GQL_DATA).
Local Abbreviation executionOf :=
  (executionOf GraphQLServerOptions createGraphQLServerOptions execute).
Local Abbreviation branchOf :=
  (branchOf transport GraphQLServerOptions createGraphQLServerOptions execute
     formatMessage GQL_DATA).
Local Abbreviation branchesOf :=
  (branchesOf transport GraphQLServerOptions createGraphQLServerOptions execute
     formatMessage GQL_DATA).
Local Abbreviation clientAfter :=
  (clientAfter GraphQLServerOptions createGraphQLServerOptions execute).
Local Abbreviation handler :=
  (handler getSubscriptionNameFromEvent transport GraphQLServerOptions
     createGraphQLServerOptions execute formatMessage GQL_DATA onError).

(** A branch reaches [sendToConnection] exactly when the execution has a
    result, and then with the envelope of that result. *)
Lemma deliver_spec ev s (w : World) :
  deliver ev s w =
    match executionOf ev s with
    | ExecutionFailed e => (Rejected e, w)
    | NoResult => (Resolved tt, w)
    | Result value =>
        sendToConnection transport (connection s)
          (formatMessage {| message_id := operationId s; payload := value;
                            type := GQL_DATA |}) w
    end.
Proof.
  unfold deliver, executionOf, mbind, Async_bind, settle, mret, Async_ret.
  destruct (createGraphQLServerOptions ev (connection s) (operation s)) as [options|e];
    [|done].
  destruct (execute options ev (connection s) (operation s)) as [[|[[value|]|e]]|e];
    done.
Qed.

(** C8: the branch of a subscriber issues a request exactly when the
    execution yields a result; the request goes to the subscriber's
    connection and its data is the formatted message with the subscriber's
    operationId as id, the result as payload and the DATA type.  Without a
    result (null or finished iterator, no async iterable, or a rejection
    on the way) nothing is posted. *)
Theorem deliver_sends_iff_result ev s (w : World) :
  posted (deliver ev s w).2 =
    posted w ++
    match executionOf ev s with
    | Result value =>
        [{| via := clientFor (apiGatewayManager w) (connection s);
            ConnectionId := id (connection s);
            Data := formatMessage {| message_id := operationId s;
                                     payload := value;
                                     type := GQL_DATA |} |}]
    | _ => []
    end
  ∧ (posted (deliver ev s w).2 ≠ posted w ↔ ∃ value, executionOf ev s = Result value).
Proof.
  assert (posted (deliver ev s w).2 =
          posted w ++
          match executionOf ev s with
          | Result value =>
              [{| via := clientFor (apiGatewayManager w) (connection s);
                  ConnectionId := id (connection s);
                  Data := formatMessage {| message_id := operationId s;
                                           payload := value;
                                           type := GQL_DATA |} |}]
          | _ => []
          end) as Hposted.
  { rewrite deliver_spec.
    destruct (executionOf ev s) as [e| |value]; cbn [snd]; [by rewrite app_nil_r..|].
    rewrite sendToConnection_spec. cbv zeta.
    destruct (transport _ _ _) as [e|]; [destruct (isStale e)|]; done. }
  split; [exact Hposted|]. rewrite Hposted.
  destruct (executionOf ev s) as [e| |value]; rewrite ?app_nil_r.
  - split; [done | by intros [? ?]].
  - split; [done | by intros [? ?]].
  - split; [by exists value|]. intros _ Heq.
    apply (f_equal length) in Heq. rewrite length_app in Heq. cbn in Heq. lia.
Qed.

(** The two ways of ending without a result that the handler tests for. *)
Lemma deliver_not_iterable ev s (w : World) options :
  createGraphQLServerOptions ev (connection s) (operation s) = Resolved options →
  execute options ev (connection s) (operation s) = Resolved NotAsyncIterable →
  deliver ev s w = (Resolved tt, w).
Proof.
  intros Hoptions Hexecute. rewrite deliver_spec. unfold executionOf.
  by rewrite Hoptions, Hexecute.
Qed.

Lemma deliver_null_result ev s (w : World) options :
  createGraphQLServerOptions ev (connection s) (operation s) = Resolved options →
  execute options ev (connection s) (operation s)
    = Resolved (AsyncIterable (Resolved None)) →
  deliver ev s w = (Resolved tt, w).
Proof.
  intros Hoptions Hexecute. rewrite deliver_spec. unfold executionOf.
  by rewrite Hoptions, Hexecute.
Qed.

Lemma count_partition (bs : list Branch) :
  count sent bs + count skipped bs + count failed bs
  = length bs + count failedInSend bs.
Proof.
  unfold count. induction bs as [|b bs IH]; [done|].
  cbn [List.filter length]. destruct b; cbn; lia.
Qed.

Lemma count_failedInSend_le (bs : list Branch) :
  count failedInSend bs ≤ count sent bs.
Proof.
  unfold count. induction bs as [|b bs IH]; [done|].
  cbn [List.filter]. destruct b; cbn; lia.
Qed.

End Dispatch.


(** * Further properties *)

(** ** Registry operations *)

(** X1: [hydrateOrRegisterConnection] always resolves, and a following
    [hydrateConnection] of the same id resolves with the same record.  When
    the id was unknown the record is the new, initialized one for the given
    endpoint; when it was known the state is untouched. *)
Theorem hydrateOrRegisterConnection_then_hydrate connectionId ep (w : World) :
  ∃ c, (hydrateOrRegisterConnection connectionId ep w).1 = Resolved c
       ∧ hydrateConnection connectionId (hydrateOrRegisterConnection connectionId ep w).2
         = (Resolved c, (hydrateOrRegisterConnection connectionId ep w).2)
       ∧ (connections w !! connectionId = None →
          c = {| id := connectionId;
                 data := {| endpoint := ep; context := []; isInitialized := true |} |})
       ∧ (is_Some (connections w !! connectionId) →
          (hydrateOrRegisterConnection connectionId ep w).2 = w).
Proof.
  unfold hydrateOrRegisterConnection, hydrateConnection.
  destruct (connections w !! connectionId) as [c|] eqn:Hc; cbn [fst snd].
  - exists c. rewrite Hc. split; [done|]. split; [done|]. split; [done | done].
  - eexists. split; [done|]. cbn [connections set_connections].
    rewrite lookup_insert_eq. split; [done|]. split; [done | by intros [? ?]].
Qed.

(** X2: a second [hydrateOrRegisterConnection] for the same id, with whatever
    endpoint, resolves with the record of the first call and changes nothing:
    the endpoint of a known connection is never updated this way. *)
Theorem hydrateOrRegisterConnection_idempotent connectionId ep ep' (w : World) :
  hydrateOrRegisterConnection connectionId ep'
    (hydrateOrRegisterConnection connectionId ep w).2
  = hydrateOrRegisterConnection connectionId ep w.
Proof.
  unfold hydrateOrRegisterConnection.
  destruct (connections w !! connectionId) as [c|] eqn:Hc; cbn [snd].
  - by rewrite Hc.
  - cbn [connections set_connections]. by rewrite lookup_insert_eq.
Qed.

(** X3: [registerConnection] overwrites whatever record the id had with an
    uninitialized one for the given endpoint: [hydrateConnection] then
    resolves with it, and so does [hydrateOrRegisterConnection], which keeps
    the registered endpoint and the uninitialized flag. *)
Theorem registerConnection_overwrites connectionId ep ep' (w : World) :
  let registered :=
    {| id := connectionId;
       data := {| endpoint := ep; context := []; isInitialized := false |} |} in
  let w1 := (registerConnection connectionId ep w).2 in
  (registerConnection connectionId ep w).1 = Resolved registered
  ∧ hydrateConnection connectionId w1 = (Resolved registered, w1)
  ∧ hydrateOrRegisterConnection connectionId ep' w1 = (Resolved registered, w1).
Proof.
  cbv zeta. unfold registerConnection, hydrateConnection, hydrateOrRegisterConnection.
  cbn [fst snd connections set_connections]. by rewrite lookup_insert_eq.
Qed.

(** X4: [setConnectionData] files [{ id, data }] under the connection's id,
    also when the registry holds no record for it (after an unregistration,
    say), so a following [hydrateConnection] resolves with the new data; and
    of two calls in a row only the second one's data is kept. *)
Theorem setConnectionData_then_hydrate d1 d2 conn (w : World) :
  let w1 := (setConnectionData d1 conn w).2 in
  hydrateConnection (id conn) w1 = (Resolved {| id := id conn; data := d1 |}, w1)
  ∧ hydrateConnection (id conn)
      (setConnectionData d1 conn (unregisterConnection conn w).2).2
    = (Resolved {| id := id conn; data := d1 |},
       (setConnectionData d1 conn (unregisterConnection conn w).2).2)
  ∧ setConnectionData d2 conn w1 = setConnectionData d2 conn w.
Proof.
  cbv zeta. unfold setConnectionData, hydrateConnection, unregisterConnection.
  cbn [fst snd connections set_connections]. rewrite !lookup_insert_eq.
  split; [done|]. split; [done|].
  unfold set_connections. cbn [apiGatewayManager connections posted reported].
  by rewrite insert_insert_eq.
Qed.

(** X5: after [unregisterConnection] the id is unknown to [hydrateConnection];
    unregistering again changes nothing; and unregistering after a
    [registerConnection] of the same id ends in the same state as
    unregistering alone (the id unknown, whatever record it had before). *)
Theorem unregisterConnection_forgets conn ep (w : World) :
  let w1 := (unregisterConnection conn w).2 in
  hydrateConnection (id conn) w1
    = (Rejected (ConnectionNotFoundError (notFoundMessage (id conn))), w1)
  ∧ unregisterConnection conn w1 = unregisterConnection conn w
  ∧ unregisterConnection conn (registerConnection (id conn) ep w).2
    = unregisterConnection conn w.
Proof.
  cbv zeta. unfold unregisterConnection, hydrateConnection, registerConnection.
  cbn [fst snd connections set_connections]. rewrite lookup_delete_eq.
  split; [done|].
  unfold set_connections. cbn [apiGatewayManager connections posted reported].
  by rewrite delete_delete_eq, delete_insert_eq.
Qed.

(** X6: the registry operations on one id leave the records of every other
    id as they were. *)
Theorem registry_frame connectionId other ep d conn (w : World) :
  other ≠ connectionId →
  id conn = connectionId →
  connections (hydrateOrRegisterConnection connectionId ep w).2 !! other
    = connections w !! other
  ∧ connections (registerConnection connectionId ep w).2 !! other
    = connections w !! other
  ∧ connections (setConnectionData d conn w).2 !! other = connections w !! other
  ∧ connections (unregisterConnection conn w).2 !! other = connections w !! other.
Proof.
  intros Hne <-.
  unfold hydrateOrRegisterConnection, registerConnection, setConnectionData,
    unregisterConnection.
  destruct (connections w !! id conn); cbn [snd connections set_connections];
    rewrite ?lookup_insert_ne, ?lookup_delete_ne by done; done.
Qed.

Lemma registry_frame_witness :
  "c2" ≠ "c1"
  ∧ id Sample.c1 = "c1"
  ∧ connections (unregisterConnection Sample.c1 Sample.fresh).2 !! "c2" = Some Sample.c2.
Proof.
  assert ("c2" ≠ "c1") as Hne by discriminate.
  split; [exact Hne|]. split; [reflexivity|].
  rewrite (proj2 (proj2 (proj2 (registry_frame "c1" "c2" "wss://one.example"
                                  (data Sample.c1) Sample.c1 Sample.fresh Hne eq_refl)))).
  vm_compute. reflexivity.
Defined.

(** ** More on sending *)

Section SendingMore.

Variable transport : ApiGatewayManagementApi -> string -> string -> option Thrown.

(** X7: when the network accepts the post, [sendToConnection] resolves, the
    registry keeps all its records, and the log grows by the one request. *)
Theorem sendToConnection_accepted conn payload (w : World) :
  transport (clientFor (apiGatewayManager w) conn) (id conn) payload = None →
  (sendToConnection transport conn payload w).1 = Resolved tt
  ∧ connections (sendToConnection transport conn payload w).2 = connections w
  ∧ posted (sendToConnection transport conn payload w).2
    = posted w ++ [{| via := clientFor (apiGatewayManager w) conn;
                      ConnectionId := id conn; Data := payload |}].
Proof.
  intros Hpost. rewrite sendToConnection_spec. cbv zeta. by rewrite Hpost.
Qed.

(** X8: whatever the network answers, one [sendToConnection] issues exactly
    one request (it never retries), addressed to the connection's id with the
    payload it was given, and the only thing it can do to the registry is
    remove the record of that id. *)
Theorem sendToConnection_one_request conn payload (w : World) :
  posted (sendToConnection transport conn payload w).2
    = posted w ++ [{| via := clientFor (apiGatewayManager w) conn;
                      ConnectionId := id conn; Data := payload |}]
  ∧ reported (sendToConnection transport conn payload w).2 = reported w
  ∧ (connections (sendToConnection transport conn payload w).2 = connections w
     ∨ connections (sendToConnection transport conn payload w).2
       = delete (id conn) (connections w)).
Proof.
  rewrite sendToConnection_spec. cbv zeta.
  destruct (transport _ _ _) as [e|]; [destruct (isStale e)|];
    cbn [snd posted reported connections set_connections log_posted
         set_apiGatewayManager]; auto.
Qed.

(** X9: [sendToConnection] never looks the connection up: with any other
    registry contents the outcome and the request are the same, so a message
    for a connection that is not registered is posted all the same. *)
Theorem sendToConnection_ignores_registry conn payload registry (w : World) :
  (sendToConnection transport conn payload (set_connections registry w)).1
    = (sendToConnection transport conn payload w).1
  ∧ posted (sendToConnection transport conn payload (set_connections registry w)).2
    = posted (sendToConnection transport conn payload w).2.
Proof.
  rewrite !sendToConnection_spec. cbv zeta.
  cbn [apiGatewayManager set_connections].
  destruct (transport _ _ _) as [e|]; [destruct (isStale e)|]; done.
Qed.

End SendingMore.

Lemma sendToConnection_accepted_witness :
  Sample.reliable (clientFor (apiGatewayManager Sample.fresh) Sample.c1)
    (id Sample.c1) "hello" = None
  ∧ connections (sendToConnection Sample.reliable Sample.c1 "hello" Sample.fresh).2
    = connections Sample.fresh.
Proof.
  split; [reflexivity|].
  exact (proj1 (proj2 (sendToConnection_accepted Sample.reliable Sample.c1 "hello"
                         Sample.fresh eq_refl))).
Defined.

(** ** Removing from the index *)

Lemma unsubscribe_lookup subscriber (subs : Subscriptions) k :
  unsubscribe subscriber subs !! k =
    if decide (k = event subscriber)
    then filter (λ s, id (connection s) ≠ id (connection subscriber)) <$> subs !! k
    else subs !! k.
Proof.
  unfold unsubscribe. case_decide as Hk.
  - subst k. destruct (subs !! event subscriber) as [l|] eqn:Hl.
    + by rewrite lookup_insert_eq.
    + by rewrite Hl.
  - destruct (subs !! event subscriber); [by rewrite lookup_insert_ne | done].
Qed.

(** X10: [unsubscribe] leaves no entry of the subscriber's connection under
    the subscriber's event, whatever operation the entries carry; the other
    keys, and the entries of other connections under that key, stay. *)
Theorem unsubscribe_removes_connection subscriber (subs : Subscriptions) :
  entriesOf (unsubscribe subscriber subs) (event subscriber)
    (id (connection subscriber)) = []
  ∧ (∀ k, k ≠ event subscriber → unsubscribe subscriber subs !! k = subs !! k)
  ∧ (∀ cid, cid ≠ id (connection subscriber) →
       entriesOf (unsubscribe subscriber subs) (event subscriber) cid
       = entriesOf subs (event subscriber) cid).
Proof.
  unfold entriesOf. split; [|split].
  - rewrite unsubscribe_lookup, decide_True by done.
    destruct (subs !! event subscriber) as [l|]; [|done].
    cbn [fmap option_fmap option_map from_option Datatypes.id].
    rewrite list_filter_filter. apply elem_of_nil_inv.
    intros s [[? ?] _]%list_elem_of_filter. done.
  - intros k Hk. by rewrite unsubscribe_lookup, decide_False.
  - intros cid Hcid. rewrite unsubscribe_lookup, decide_True by done.
    destruct (subs !! event subscriber) as [l|]; [|done].
    cbn [fmap option_fmap option_map from_option Datatypes.id].
    rewrite list_filter_filter. apply list_filter_iff. intros s. split.
    + by intros [? _].
    + intros Hs. split; [done | congruence].
Qed.

(** X11: no removal ever drops a key: after [unsubscribe],
    [unsubscribeOperation] and [unsubscribeAllByConnectionId] the index has
    the keys it had, some of them with an empty list. *)
Theorem removals_keep_keys subscriber connectionId opId (subs : Subscriptions) :
  dom (unsubscribe subscriber subs) = dom subs
  ∧ dom (unsubscribeOperation connectionId opId subs) = dom subs
  ∧ dom (unsubscribeAllByConnectionId connectionId subs) = dom subs.
Proof.
  split; [|split].
  - unfold unsubscribe. destruct (subs !! event subscriber) as [l|] eqn:Hl; [|done].
    apply dom_insert_lookup_L. by exists l.
  - unfold unsubscribeOperation. by rewrite refilter_all, dom_fmap_L.
  - unfold unsubscribeAllByConnectionId. by rewrite refilter_all, dom_fmap_L.
Qed.

(** X12: the removals only remove: under every key the list afterwards is
    the old list with some entries left out, the others in their old
    order. *)
Theorem removals_only_remove subscriber connectionId opId (subs : Subscriptions) k :
  default [] (unsubscribe subscriber subs !! k) `sublist_of` default [] (subs !! k)
  ∧ default [] (unsubscribeOperation connectionId opId subs !! k)
      `sublist_of` default [] (subs !! k)
  ∧ default [] (unsubscribeAllByConnectionId connectionId subs !! k)
      `sublist_of` default [] (subs !! k).
Proof.
  rewrite unsubscribe_lookup, lookup_unsubscribeOperation,
    lookup_unsubscribeAllByConnectionId.
  destruct (subs !! k) as [l|];
    cbn [fmap option_fmap option_map from_option Datatypes.id].
  - split; [|split]; [case_decide; [|done]|..]; apply sublist_filter.
  - split; [|split]; [by case_decide|done..].
Qed.

(** X13: after [unsubscribeOperation] no key holds an entry with that
    connection id and that operation id. *)
Theorem unsubscribeOperation_removes_target connectionId opId (subs : Subscriptions) k s :
  s ∈ default [] (unsubscribeOperation connectionId opId subs !! k) →
  ¬ (id (connection s) = connectionId ∧ operationId s = opId).
Proof.
  rewrite lookup_unsubscribeOperation.
  destruct (subs !! k) as [l|];
    cbn [fmap option_fmap option_map from_option Datatypes.id].
  - intros [[Hc _] _]%list_elem_of_filter [Heq _]. done.
  - by intros ?%elem_of_nil.
Qed.

(** X14: each removal is idempotent: repeating it with the same arguments
    changes nothing more. *)
Theorem removals_idempotent subscriber connectionId opId (subs : Subscriptions) :
  unsubscribe subscriber (unsubscribe subscriber subs) = unsubscribe subscriber subs
  ∧ unsubscribeOperation connectionId opId (unsubscribeOperation connectionId opId subs)
    = unsubscribeOperation connectionId opId subs
  ∧ unsubscribeAllByConnectionId connectionId
      (unsubscribeAllByConnectionId connectionId subs)
    = unsubscribeAllByConnectionId connectionId subs.
Proof.
  split; [|split]; apply map_eq; intros k.
  - rewrite !unsubscribe_lookup. case_decide; [|done].
    destruct (subs !! k) as [l|]; [|done].
    cbn [fmap option_fmap option_map]. f_equal.
    rewrite list_filter_filter. apply list_filter_iff. tauto.
  - rewrite !lookup_unsubscribeOperation.
    destruct (subs !! k) as [l|]; [|done].
    cbn [fmap option_fmap option_map]. f_equal.
    rewrite list_filter_filter. apply list_filter_iff. tauto.
  - rewrite !lookup_unsubscribeAllByConnectionId.
    destruct (subs !! k) as [l|]; [|done].
    cbn [fmap option_fmap option_map]. f_equal.
    rewrite list_filter_filter. apply list_filter_iff. tauto.
Qed.

Lemma unsubscribeOperation_removes_target_witness :
  Sample.s1 ∈ default [] (unsubscribeOperation "c2" "2" Sample.index !! "chat")
  ∧ ¬ (id (connection Sample.s1) = "c2" ∧ operationId Sample.s1 = "2").
Proof.
  assert (Sample.s1 ∈ default [] (unsubscribeOperation "c2" "2" Sample.index !! "chat"))
    as Hin by (vm_compute; apply list_elem_of_here).
  split; [exact Hin|].
  exact (unsubscribeOperation_removes_target "c2" "2" Sample.index "chat" Sample.s1 Hin).
Defined.

(** ** More on subscribing *)

Section SubscribeMore.

Variable getSubscriptionNameFromEvent : ISubscriptionEvent -> string.
Variable getSubscriptionNameFromConnection : string -> IConnection -> string.

Local Abbreviation subscribe_name := (subscribe_name getSubscriptionNameFromConnection).
Local Abbreviation subscribe := (subscribe getSubscriptionNameFromConnection).
Local Abbreviation key := getSubscriptionNameFromConnection.

Lemma subscribe_held names conn op (subs : Subscriptions) :
  (∀ n, n ∈ names → id conn ∈ connectionIds subs (key n conn)) →
  subscribe names conn op subs = subs.
Proof.
  unfold subscribe.
  induction names as [|n names IH]; intros Hheld; cbn [foldl]; [done|].
  rewrite subscribe_name_spec. cbv zeta.
  rewrite decide_True by apply Hheld, list_elem_of_here.
  apply IH. intros m Hm. by apply Hheld, list_elem_of_further.
Qed.

Lemma subscribe_name_lookup conn op (subs : Subscriptions) n k :
  default [] (subscribe_name conn op subs n !! k) =
    if decide (k = key n conn ∧ id conn ∉ connectionIds subs k)
    then default [] (subs !! k)
         ++ [{| connection := conn; operation := op; event := key n conn;
                operationId := op_operationId op |}]
    else default [] (subs !! k).
Proof.
  rewrite subscribe_name_spec. cbv zeta.
  destruct (decide (id conn ∈ connectionIds subs (key n conn))) as [Hin|Hout].
  - rewrite decide_False; [done|]. by intros [-> ?].
  - destruct (decide (k = key n conn)) as [->|Hne].
    + rewrite decide_True by done. by rewrite lookup_insert_eq.
    + rewrite decide_False by tauto. by rewrite lookup_insert_ne.
Qed.

(** X15: [subscribe] only appends: under every key the old list is a prefix
    of the new one, so existing subscribers keep their place in the delivery
    order. *)
Theorem subscribe_keeps_prefix names conn op (subs : Subscriptions) k :
  default [] (subs !! k) `prefix_of` default [] (subscribe names conn op subs !! k).
Proof.
  revert subs. unfold subscribe.
  induction names as [|n names IH]; intros subs; cbn [foldl]; [done|].
  etrans; [|apply IH]. rewrite subscribe_name_lookup.
  case_decide; [by apply prefix_app_r | done].
Qed.

(** X16: [subscribe] is idempotent: a second call for the same names and
    connection, with whatever operation, changes nothing. *)
Theorem subscribe_idempotent names conn op op' (subs : Subscriptions) :
  subscribe names conn op' (subscribe names conn op subs)
  = subscribe names conn op subs.
Proof.
  apply subscribe_held. intros n Hn. by apply connectionIds_subscribe_here.
Qed.

(** X17: the keys after [subscribe] are the old keys together with the key
    computed for each requested name. *)
Theorem subscribe_dom names conn op (subs : Subscriptions) :
  dom (subscribe names conn op subs)
  = dom subs ∪ list_to_set ((λ n, key n conn) <$> names).
Proof.
  revert subs. unfold subscribe.
  induction names as [|n names IH]; intros subs; cbn [foldl].
  - cbn [fmap list_fmap]. by rewrite list_to_set_nil, (right_id_L ∅ (∪)).
  - rewrite IH, fmap_cons, list_to_set_cons.
    rewrite subscribe_name_spec. cbv zeta. case_decide as Hin.
    + assert (key n conn ∈ dom subs) as Hdom.
      { apply elem_of_dom. unfold connectionIds in Hin.
        destruct (subs !! key n conn); [done|]. by apply elem_of_nil in Hin. }
      apply set_eq. intros x. rewrite !elem_of_union, elem_of_singleton.
      split; [tauto|]. intros [?|[->|?]]; tauto.
    + rewrite dom_insert_L. apply set_eq. intros x.
      rewrite !elem_of_union, elem_of_singleton. tauto.
Qed.

(** X18: [subscribe] does not touch the entries of other connections: under
    every key they are what they were. *)
Theorem subscribe_other_connections names conn op (subs : Subscriptions) k cid :
  cid ≠ id conn →
  entriesOf (subscribe names conn op subs) k cid = entriesOf subs k cid.
Proof.
  intros Hcid. revert subs. unfold subscribe, entriesOf.
  induction names as [|n names IH]; intros subs; cbn [foldl]; [done|].
  rewrite IH, subscribe_name_lookup. case_decide; [|done].
  rewrite filter_app, filter_cons, decide_False, filter_nil, app_nil_r; [done|].
  cbn. congruence.
Qed.

(** X19: subscribing a connection that holds no entry under the key and then
    unsubscribing the new subscriber gives back, under every key, the list
    that was there. *)
Theorem subscribe_then_unsubscribe n conn op (subs : Subscriptions) k :
  id conn ∉ connectionIds subs (key n conn) →
  default []
    (unsubscribe {| connection := conn; operation := op; event := key n conn;
                    operationId := op_operationId op |}
       (subscribe [n] conn op subs) !! k)
  = default [] (subs !! k).
Proof.
  intros Hout. unfold subscribe. cbn [foldl].
  rewrite unsubscribe_lookup. cbn [event connection].
  pose proof (subscribe_name_lookup conn op subs n k) as Hk.
  destruct (decide (k = key n conn)) as [->|Hne].
  - rewrite decide_True in Hk by done.
    destruct (subscribe_name conn op subs n !! key n conn) as [l|] eqn:Hl;
      cbn [fmap option_fmap option_map from_option Datatypes.id] in Hk |- *.
    + rewrite Hk, filter_app, filter_cons, decide_False, filter_nil, app_nil_r
        by (cbn; tauto).
      apply filter_all, Forall_forall. intros s Hs Heq. apply Hout.
      unfold connectionIds. apply list_elem_of_fmap. by exists s.
    + by destruct (default [] (subs !! key n conn)).
  - rewrite decide_False in Hk by tauto. done.
Qed.

Lemma subscribe_batch_has_connection names conn op (subs : Subscriptions) n ev :
  keyedByEvent subs →
  n ∈ names →
  getSubscriptionNameFromEvent ev = key n conn →
  ∃ s batch,
    subscribersByEvent getSubscriptionNameFromEvent (subscribe names conn op subs) ev
      = [batch]
    ∧ s ∈ batch ∧ id (connection s) = id conn.
Proof.
  intros Hkeyed Hn Hev.
  pose proof (connectionIds_subscribe_here key names conn op subs n Hn) as Hin.
  pose proof (keyedByEvent_subscribe key names conn op subs Hkeyed) as Hkeyed'.
  unfold connectionIds in Hin. apply list_elem_of_fmap in Hin as (s & Hid & Hs).
  exists s, (default [] (subscribe names conn op subs !! key n conn)).
  split; [|by split].
  unfold subscribersByEvent. rewrite Hev. f_equal.
  destruct (subscribe names conn op subs !! key n conn) as [l|] eqn:Hl;
    cbn [from_option Datatypes.id]; [|done].
  apply filter_all, (Hkeyed' _ _ Hl).
Qed.

(** X20: on an index filed by event, once [subscribe] has run for a name,
    every event whose key is the key of that name finds a subscriber of the
    connection in its batch. *)
Theorem subscribe_found_by_event names conn op (subs : Subscriptions) n ev :
  keyedByEvent subs →
  n ∈ names →
  getSubscriptionNameFromEvent ev = key n conn →
  ∃ s batch,
    subscribersByEvent getSubscriptionNameFromEvent (subscribe names conn op subs) ev
      = [batch]
    ∧ s ∈ batch ∧ id (connection s) = id conn.
Proof. apply subscribe_batch_has_connection. Qed.

(** X27: after [unsubscribe], the batch of every event whose key is the
    subscriber's event holds no subscriber of that connection. *)
Theorem unsubscribe_then_subscribersByEvent subscriber (subs : Subscriptions) ev batch s :
  getSubscriptionNameFromEvent ev = event subscriber →
  batch ∈ subscribersByEvent getSubscriptionNameFromEvent (unsubscribe subscriber subs) ev →
  s ∈ batch →
  id (connection s) ≠ id (connection subscriber).
Proof.
  intros Hev Hbatch Hs. unfold subscribersByEvent in Hbatch.
  apply list_elem_of_singleton in Hbatch. subst batch.
  apply list_elem_of_filter in Hs as [_ Hs].
  rewrite Hev, unsubscribe_lookup, decide_True in Hs by done.
  destruct (subs !! event subscriber) as [l|];
    cbn [fmap option_fmap option_map from_option Datatypes.id] in Hs.
  - by apply list_elem_of_filter in Hs as [? _].
  - by apply elem_of_nil in Hs.
Qed.

End SubscribeMore.

Lemma subscribe_other_connections_witness :
  "c2" ≠ id (Sample.connectionAt "c3" "wss://three.example")
  ∧ entriesOf
      (subscribe defaultNameFromConnection ["chat"; "news"]
         (Sample.connectionAt "c3" "wss://three.example") (Sample.operationWith "5")
         Sample.index)
      "chat" "c2"
    = [Sample.s2].
Proof.
  assert ("c2" ≠ id (Sample.connectionAt "c3" "wss://three.example")) as Hne
    by discriminate.
  split; [exact Hne|].
  rewrite (subscribe_other_connections defaultNameFromConnection ["chat"; "news"]
             (Sample.connectionAt "c3" "wss://three.example") (Sample.operationWith "5")
             Sample.index "chat" "c2" Hne).
  vm_compute. reflexivity.
Defined.

Lemma subscribe_then_unsubscribe_witness :
  (id (Sample.connectionAt "c3" "wss://three.example")
     ∉ connectionIds Sample.index
         (defaultNameFromConnection "chat"
            (Sample.connectionAt "c3" "wss://three.example")))
  ∧ default []
      (unsubscribe (Sample.subscriber "c3" "wss://three.example" "chat" "5")
         (subscribe defaultNameFromConnection ["chat"]
            (Sample.connectionAt "c3" "wss://three.example") (Sample.operationWith "5")
            Sample.index) !! "chat")
    = [Sample.s1; Sample.s2].
Proof.
  assert (id (Sample.connectionAt "c3" "wss://three.example")
            ∉ connectionIds Sample.index
                (defaultNameFromConnection "chat"
                   (Sample.connectionAt "c3" "wss://three.example"))) as Hout.
  { refine (bool_decide_unpack _ _). vm_compute. exact I. }
  split; [exact Hout|].
  exact (subscribe_then_unsubscribe defaultNameFromConnection "chat"
           (Sample.connectionAt "c3" "wss://three.example") (Sample.operationWith "5")
           Sample.index "chat" Hout).
Defined.

Lemma subscribe_found_by_event_witness :
  keyedByEvent Sample.index
  ∧ "chat" ∈ ["news"; "chat"]
  ∧ defaultNameFromEvent Sample.chat
    = defaultNameFromConnection "chat" (Sample.connectionAt "c3" "wss://three.example")
  ∧ ∃ s batch,
      subscribersByEvent defaultNameFromEvent
        (subscribe defaultNameFromConnection ["news"; "chat"]
           (Sample.connectionAt "c3" "wss://three.example") (Sample.operationWith "5")
           Sample.index)
        Sample.chat = [batch]
      ∧ s ∈ batch ∧ id (connection s) = "c3".
Proof.
  assert ("chat" ∈ ["news"; "chat"]) as Hin
    by apply list_elem_of_further, list_elem_of_here.
  split; [apply Sample_index_keyed|]. split; [exact Hin|]. split; [reflexivity|].
  exact (subscribe_found_by_event defaultNameFromEvent defaultNameFromConnection
           ["news"; "chat"] (Sample.connectionAt "c3" "wss://three.example")
           (Sample.operationWith "5") Sample.index "chat" Sample.chat
           Sample_index_keyed Hin eq_refl).
Defined.

(** ** More on dispatch *)

Lemma all_cons_world p rest (w : World) :
  (all (p :: rest) w).2 = (all rest (p w).2).2.
Proof.
  cbn [all]. destruct (p w) as [o w1]. cbn [fst snd].
  by destruct (all rest w1).
Qed.

Section DispatchMore.

Variable getSubscriptionNameFromEvent : ISubscriptionEvent -> string.
Variable transport : ApiGatewayManagementApi -> string -> string -> option Thrown.
Variable GraphQLServerOptions : Type.
Variable createGraphQLServerOptions :
  ISubscriptionEvent -> IConnection -> OperationRequest -> Outcome GraphQLServerOptions.
Variable execute :
  GraphQLServerOptions -> ISubscriptionEvent -> IConnection -> OperationRequest ->
  Outcome ExecuteOutput.
Variable formatMessage : OperationMessage -> string.
Variable GQL_DATA : string.
Variable onError : Thrown -> option Thrown.

Local Abbreviation deliver :=
  (deliver transport GraphQLServerOptions createGraphQLServerOptions execute
     formatMessage GQL_DATA).
Local Abbreviation executionOf :=
  (executionOf GraphQLServerOptions createGraphQLServerOptions execute).
Local Abbreviation handlerWith :=
  (handler getSubscriptionNameFromEvent transport GraphQLServerOptions
     createGraphQLServerOptions execute formatMessage GQL_DATA).
Local Abbreviation guarded handle ev s := (catch (deliver ev s) (callOnError handle)).

(** One guarded branch, case by case. *)
Lemma guarded_cases handle ev s (w : World) :
  guarded handle ev s w =
    match executionOf ev s with
    | ExecutionFailed e => callOnError handle e w
    | NoResult => (Resolved tt, w)
    | Result value =>
        let client := clientFor (apiGatewayManager w) (connection s) in
        let request :=
          {| via := client; ConnectionId := id (connection s);
             Data := envelope formatMessage GQL_DATA s value |} in
        let w1 := log_posted request (set_apiGatewayManager (Some client) w) in
        match transport client (id (connection s)) (envelope formatMessage GQL_DATA s value) with
        | None => (Resolved tt, w1)
        | Some e =>
            if isStale e
            then (Resolved tt,
                  set_connections (delete (id (connection s)) (connections w1)) w1)
            else callOnError handle e w1
        end
    end.
Proof.
  unfold catch. rewrite deliver_spec.
  destruct (executionOf ev s) as [e| |value]; [done..|].
  fold (envelope formatMessage GQL_DATA s value).
  rewrite sendToConnection_spec. cbv zeta.
  destruct (transport _ _ _) as [e|]; [destruct (isStale e)|]; done.
Qed.

Lemma guarded_registry handle ev s (w : World) k :
  connections (guarded handle ev s w).2 !! k = connections w !! k
  ∨ (connections (guarded handle ev s w).2 !! k = None ∧ k = id (connection s)).
Proof.
  rewrite guarded_cases. cbv zeta.
  destruct (executionOf ev s) as [e| |value]; [by left..|].
  destruct (transport _ _ _) as [e|]; [destruct (isStale e)|]; [|by left..].
  cbn [snd connections set_connections log_posted set_apiGatewayManager].
  destruct (decide (k = id (connection s))) as [->|Hne].
  - right. by rewrite lookup_delete_eq.
  - left. by rewrite lookup_delete_ne.
Qed.

Lemma all_guarded_registry handle ev subscribers (w : World) k :
  let w' := (all (map (λ promise, catch promise (callOnError handle))
                    (map (deliver ev) subscribers)) w).2 in
  connections w' !! k = connections w !! k
  ∨ (connections w' !! k = None ∧ ∃ s, s ∈ subscribers ∧ id (connection s) = k).
Proof.
  cbv zeta. revert w. induction subscribers as [|s rest IH]; intros w; [by left|].
  cbn [map]. rewrite all_cons_world.
  destruct (IH (guarded handle ev s w).2) as [Hsame|[Hnone [s' [Hs' Hid]]]].
  - rewrite Hsame. destruct (guarded_registry handle ev s w k) as [Hk|[Hk ->]].
    + by left.
    + right. split; [done|]. exists s. split; [apply list_elem_of_here | done].
  - right. split; [done|]. exists s'. split; [by apply list_elem_of_further | done].
Qed.

Lemma handler_one_batch handle (subs : Subscriptions) ev subscribers (w : World) :
  subscribersByEvent getSubscriptionNameFromEvent subs ev = [subscribers] →
  handlerWith handle subs ev w
  = all (map (λ promise, catch promise (callOnError handle))
           (map (deliver ev) subscribers)) w.
Proof.
  intros Hbatch. unfold handler. rewrite Hbatch.
  cbn [forAwait]. unfold mbind, Async_bind, mret, Async_ret.
  by destruct (all _ w) as [[[]|e] w'].
Qed.

(** X21: an event whose key has no entry in the index is dispatched to
    nobody: the handler resolves and leaves the registry and both logs as
    they were. *)
Theorem handler_no_subscribers (subs : Subscriptions) ev (w : World) :
  subs !! getSubscriptionNameFromEvent ev = None →
  handlerWith onError subs ev w = (Resolved tt, w).
Proof.
  intros Hnone. rewrite (handler_one_batch onError subs ev []); [done|].
  unfold subscribersByEvent. by rewrite Hnone.
Qed.


End DispatchMore.

Lemma handler_no_subscribers_witness :
  Sample.index !! defaultNameFromEvent {| ev_event := "weather"; ev_payload := "{}" |}
    = None
  ∧ handler defaultNameFromEvent Sample.reliable Sample.options Sample.createOptions
      Sample.executeEcho Sample.format "data" Sample.quiet Sample.index
      {| ev_event := "weather"; ev_payload := "{}" |} Sample.fresh
    = (Resolved tt, Sample.fresh).
Proof.
  assert (Sample.index
            !! defaultNameFromEvent {| ev_event := "weather"; ev_payload := "{}" |}
          = None) as Hnone by (vm_compute; reflexivity).
  split; [exact Hnone|].
  exact (handler_no_subscribers defaultNameFromEvent Sample.reliable Sample.options
           Sample.createOptions Sample.executeEcho Sample.format "data" Sample.quiet
           Sample.index {| ev_event := "weather"; ev_payload := "{}" |} Sample.fresh
           Hnone).
Defined.

Lemma Sample_chat_batch :
  subscribersByEvent defaultNameFromEvent Sample.index Sample.chat
  = [[Sample.s1; Sample.s2]].
Proof. vm_compute. reflexivity. Qed.


Lemma unsubscribe_then_subscribersByEvent_witness :
  defaultNameFromEvent Sample.chat = event Sample.s1
  ∧ [Sample.s2]
      ∈ subscribersByEvent defaultNameFromEvent (unsubscribe Sample.s1 Sample.index)
          Sample.chat
  ∧ Sample.s2 ∈ [Sample.s2]
  ∧ id (connection Sample.s2) ≠ id (connection Sample.s1).
Proof.
  assert ([Sample.s2]
            ∈ subscribersByEvent defaultNameFromEvent (unsubscribe Sample.s1 Sample.index)
                Sample.chat) as Hbatch by (vm_compute; apply list_elem_of_here).
  assert (Sample.s2 ∈ [Sample.s2]) as Hin by apply list_elem_of_here.
  split; [reflexivity|]. split; [exact Hbatch|]. split; [exact Hin|].
  exact (unsubscribe_then_subscribersByEvent defaultNameFromEvent Sample.s1 Sample.index
           Sample.chat [Sample.s2] Sample.s2 eq_refl Hbatch Hin).
Defined.


(** * The fan-out under every schedule *)

Lemma concat_fmap_insert {A B} (f : A → list B) (l : list A) i a b extra :
  l !! i = Some a →
  f b = f a ++ extra →
  concat (f <$> <[i:=b]> l) ≡ₚ concat (f <$> l) ++ extra.
Proof.
  intros Hi Hb. revert i Hi. induction l as [|x l IH]; intros [|i] Hi; try done.
  - injection Hi as ->. cbn [insert list_insert fmap list_fmap concat].
    rewrite Hb, <- !(assoc_L (++)). f_equiv. apply Permutation_app_comm.
  - cbn [insert list_insert fmap list_fmap concat].
    change (list_fmap A (list B) f ?k) with (f <$> k).
    rewrite (IH i Hi). by rewrite (assoc_L (++)).
Qed.

Lemma fmap_fst_insert {A B} (l : list (A * B)) i a b :
  l !! i = Some a → b.1 = a.1 → (<[i:=b]> l).*1 = l.*1.
Proof.
  intros Hi Hb. rewrite list_fmap_insert, Hb. apply list_insert_id.
  by rewrite list_lookup_fmap, Hi.
Qed.

Section Schedules.

Variable getSubscriptionNameFromEvent : ISubscriptionEvent -> string.
Variable transport : ApiGatewayManagementApi -> string -> string -> option Thrown.
Variable GraphQLServerOptions : Type.
Variable createGraphQLServerOptions :
  ISubscriptionEvent -> IConnection -> OperationRequest -> Outcome GraphQLServerOptions.
Variable execute :
  GraphQLServerOptions -> ISubscriptionEvent -> IConnection -> OperationRequest ->
  Outcome ExecuteOutput.
Variable formatMessage : OperationMessage -> string.
Variable GQL_DATA : string.
Variable onError : Thrown -> option Thrown.

Local Abbreviation executionOf :=
  (executionOf GraphQLServerOptions createGraphQLServerOptions execute).
Local Abbreviation deliveryOf :=
  (deliveryOf GraphQLServerOptions createGraphQLServerOptions execute
     formatMessage GQL_DATA).
Local Abbreviation advance :=
  (advance transport GraphQLServerOptions createGraphQLServerOptions execute
     formatMessage GQL_DATA onError).
Local Abbreviation stepAt :=
  (stepAt transport GraphQLServerOptions createGraphQLServerOptions execute
     formatMessage GQL_DATA onError).
Local Abbreviation promiseAll :=
  (promiseAll transport GraphQLServerOptions createGraphQLServerOptions execute
     formatMessage GQL_DATA onError).
Local Abbreviation outcomesUnder :=
  (outcomesUnder transport GraphQLServerOptions createGraphQLServerOptions execute
     formatMessage GQL_DATA onError).
Local Abbreviation handlerUnder :=
  (handlerUnder getSubscriptionNameFromEvent transport GraphQLServerOptions
     createGraphQLServerOptions execute formatMessage GQL_DATA onError).
Local Abbreviation answered :=
  (answered transport GraphQLServerOptions createGraphQLServerOptions execute
     formatMessage GQL_DATA).
Local Abbreviation coherent :=
  (coherent transport GraphQLServerOptions createGraphQLServerOptions execute
     formatMessage GQL_DATA onError).
Local Abbreviation postOf :=
  (postOf GraphQLServerOptions createGraphQLServerOptions execute formatMessage GQL_DATA).
Local Abbreviation poolInvariant :=
  (poolInvariant transport GraphQLServerOptions createGraphQLServerOptions execute
     formatMessage GQL_DATA onError).
Local Abbreviation start subscribers w :=
  {| branches := (λ s, (s, Started)) <$> subscribers; world := w; rejection := None |}.

(** The first stretch of a branch whose execution has a result: the client
    in use is fetched or built, and the request is issued through it. *)
Lemma advance_started_result ev s value (w : World) :
  executionOf ev s = Result value →
  let client := clientFor (apiGatewayManager w) (connection s) in
  advance ev s Started w =
    (Posting match transport client (id (connection s))
                     (envelope formatMessage GQL_DATA s value) with
             | None => Resolved tt
             | Some e => Rejected e
             end,
     log_posted {| via := client; ConnectionId := id (connection s);
                   Data := envelope formatMessage GQL_DATA s value |}
       (set_apiGatewayManager (Some client) w)).
Proof.
  intros Hvalue. cbv zeta. unfold advance. rewrite Hvalue.
  unfold mbind, Async_bind.
  rewrite (createApiGatewayManager_spec _ (connection s)) by done.
  unfold postToConnection. by destruct (transport _ _ _).
Qed.

Lemma coherent_mono ev (w w' : World) b :
  (∀ k, connections w !! k = None → connections w' !! k = None) →
  coherent ev w b → coherent ev w' b.
Proof.
  intros Hmono. unfold coherent.
  destruct b as [s [|[[]|e]|[] e|[] o]]; cbn [fst snd]; try done.
  intros (Ho & Hanswered & Hgone). auto.
Qed.

(** What one stretch of one branch does. *)
Lemma advance_effect ev s stage (w : World) :
  coherent ev w (s, stage) →
  coherent ev (advance ev s stage w).2 (s, (advance ev s stage w).1)
  ∧ (∀ k, connections w !! k = None → connections (advance ev s stage w).2 !! k = None)
  ∧ (∃ new, posted (advance ev s stage w).2 = posted w ++ new
            ∧ postOf ev (s, (advance ev s stage w).1)
              = postOf ev (s, stage) ++ ((λ r, (ConnectionId r, Data r)) <$> new))
  ∧ (∃ new, reported (advance ev s stage w).2 = reported w ++ new
            ∧ reportOf (s, (advance ev s stage w).1) = reportOf (s, stage) ++ new).
Proof.
  intros Hcoherent. destruct stage as [|[[]|e]|inSend e|b o].
  - destruct (executionOf ev s) as [e| |value] eqn:Hexecution.
    + unfold advance. rewrite Hexecution. cbn [fst snd].
      split; [done|]. split; [done|].
      split; exists []; cbn [fmap list_fmap]; by rewrite !app_nil_r.
    + unfold advance. rewrite Hexecution. cbn [fst snd].
      split; [done|]. split; [done|].
      split; exists []; cbn [fmap list_fmap]; by rewrite !app_nil_r.
    + rewrite (advance_started_result ev s value w Hexecution). cbn [fst snd].
      split; [|split; [done|split]].
      * unfold coherent. cbn [fst snd].
        destruct (transport _ _ _) as [e|] eqn:Hanswer; by eexists _, _.
      * eexists [_]. split; [done|].
        unfold postOf, deliveryOf. cbn [fst snd hasPosted]. by rewrite Hexecution.
      * exists []. cbn [fmap list_fmap]. by rewrite !app_nil_r.
  - unfold coherent in Hcoherent. cbn [fst snd] in Hcoherent.
    cbn [advance fst snd]. split; [by (unfold coherent; cbn [fst snd])|]. split; [done|].
    split; exists []; cbn [fmap list_fmap]; by rewrite !app_nil_r.
  - unfold coherent in Hcoherent. cbn [fst snd] in Hcoherent.
    cbn [advance]. destruct (isStale e) eqn:Hstale; cbn [fst snd].
    + unfold unregisterConnection. cbn [fst snd connections set_connections].
      split; [|split; [|split]].
      * unfold coherent. cbn [fst snd connections set_connections].
        split; [done|]. split; [by exists e|]. apply lookup_delete_eq.
      * intros k Hk. rewrite lookup_delete. by case_decide.
      * exists []. cbn [fmap list_fmap]. by rewrite !app_nil_r.
      * exists []. cbn [fmap list_fmap]. by rewrite !app_nil_r.
    + split; [done|]. split; [done|]. split; exists []; cbn [fmap list_fmap]; by rewrite !app_nil_r.
  - unfold coherent in Hcoherent. cbn [fst snd] in Hcoherent.
    cbn [advance callOnError fst snd]. fold (handled onError e).
    split; [|split; [done|split]].
    + unfold coherent. cbn [fst snd]. by destruct inSend.
    + exists []. cbn [fmap list_fmap]. rewrite !app_nil_r.
      unfold postOf. cbn [fst snd hasPosted]. by destruct inSend.
    + exists [e]. split; [done|]. unfold reportOf. cbn [fst snd]. by destruct inSend.
  - cbn [advance fst snd]. split; [done|]. split; [done|].
    split; exists []; cbn [fmap list_fmap]; by rewrite !app_nil_r.
Qed.

Lemma stepAt_invariant ev subscribers (w0 : World) (p : Pool) i :
  poolInvariant ev subscribers w0 p → poolInvariant ev subscribers w0 (stepAt ev p i).
Proof.
  intros (Hfst & Hcoherent & (pn & Hposted & Hposts) & (rn & Hreported & Hreports) & Hrej).
  unfold stepAt. destruct (branches p !! i) as [[s stage]|] eqn:Hi.
  2: { split; [done|]. split; [done|]. split; [by exists pn|]. split; [by exists rn|done]. }
  assert (coherent ev (world p) (s, stage)) as Hhere
    by apply (Forall_lookup_1 _ _ _ _ Hcoherent Hi).
  destruct (advance_effect ev s stage (world p) Hhere)
    as (Hthere & Hmono & (pnew & Hposted' & Hpost) & (rnew & Hreported' & Hreport)).
  assert (∀ c o, stage = Settled c o → advance ev s stage (world p) = (stage, world p))
    as Hsettled by (by intros c o ->).
  destruct (advance ev s stage (world p)) as [stage' w'].
  cbn [fst snd] in Hthere, Hmono, Hposted', Hpost, Hreported', Hreport.
  unfold poolInvariant. cbn [branches world rejection].
  split; [|split; [|split; [|split]]].
  - by rewrite (fmap_fst_insert _ i (s, stage)).
  - apply Forall_insert; [|done].
    eapply Forall_impl; [exact Hcoherent|]. intros b. by apply coherent_mono.
  - exists (pn ++ pnew). split.
    + by rewrite Hposted', Hposted, (assoc_L (++)).
    + rewrite fmap_app, Hposts. symmetry.
      by apply (concat_fmap_insert _ _ i (s, stage)).
  - exists (rn ++ rnew). split.
    + by rewrite Hreported', Hreported, (assoc_L (++)).
    + rewrite Hreports. symmetry.
      by apply (concat_fmap_insert _ _ i (s, stage)).
  - assert (i < length (branches p)) as Hlt by (by eapply lookup_lt_Some).
    destruct (rejection p) as [e0|].
    + destruct Hrej as (s0 & c & [j Hj]%list_elem_of_lookup).
      exists s0, c. apply list_elem_of_lookup.
      destruct (decide (j = i)) as [->|Hne].
      * exists i. rewrite Hi in Hj. injection Hj as -> ->.
        injection (Hsettled _ _ eq_refl) as -> _. by rewrite list_lookup_insert_eq.
      * exists j. by rewrite list_lookup_insert_ne.
    + destruct stage' as [|answer|inSend e|c [u|e]];
        try (apply Forall_insert; [done | by intros c' e']).
      exists s, c. apply list_elem_of_lookup. exists i.
      by rewrite list_lookup_insert_eq.
Qed.

Lemma run_invariant ev subscribers (w0 : World) schedule (p : Pool) :
  poolInvariant ev subscribers w0 p →
  poolInvariant ev subscribers w0 (foldl (stepAt ev) p schedule).
Proof.
  revert p. induction schedule as [|i schedule IH]; intros p Hp; [done|].
  cbn [foldl]. by apply IH, stepAt_invariant.
Qed.

Lemma start_invariant ev subscribers (w : World) :
  poolInvariant ev subscribers w (start subscribers w).
Proof.
  cbn [branches world rejection]. unfold poolInvariant. cbn [branches world rejection].
  split; [|split; [|split; [|split]]].
  - rewrite <- list_fmap_compose. apply list_fmap_id.
  - apply Forall_fmap, Forall_true. by intros s.
  - exists []. rewrite app_nil_r. split; [done|].
    induction subscribers as [|s rest IH]; [done|]. by rewrite fmap_cons.
  - exists []. rewrite app_nil_r. split; [done|].
    induction subscribers as [|s rest IH]; [done|]. by rewrite fmap_cons.
  - apply Forall_fmap, Forall_true. by intros s c e.
Qed.

Local Abbreviation ended :=
  (λ b : ISubscriber * Stage, match b.2 with Settled c _ => Some c | _ => None end).

Lemma reports_length (l : list (ISubscriber * Stage)) :
  length (concat (reportOf <$> l)) = count failed (omap ended l).
Proof.
  unfold count. induction l as [|[s stage] l IH]; [done|].
  rewrite fmap_cons. cbn [concat omap list_omap fst snd]. rewrite length_app, IH.
  unfold reportOf. cbn [fst snd].
  destruct stage as [| | |[] o]; done.
Qed.

Lemma reports_elem (l : list (ISubscriber * Stage)) e :
  e ∈ concat (reportOf <$> l)
  ↔ ∃ s c o, (s, Settled c o) ∈ l ∧ failure c = Some e.
Proof.
  induction l as [|[s stage] l IH].
  - split; [by intros ?%elem_of_nil | by intros (? & ? & ? & ?%elem_of_nil & _)].
  - rewrite fmap_cons. cbn [concat]. rewrite elem_of_app, IH. split.
    + intros [Hhere|(s' & c & o & Hin & Hc)].
      * unfold reportOf in Hhere. cbn [fst snd] in Hhere.
        destruct stage as [| | |c o]; try by apply elem_of_nil in Hhere.
        exists s, c, o. split; [apply list_elem_of_here|].
        destruct (failure c); [by apply list_elem_of_singleton in Hhere as ->|].
        by apply elem_of_nil in Hhere.
      * exists s', c, o. split; [by apply list_elem_of_further | done].
    + intros (s' & c & o & [Heq|Hin]%elem_of_cons & Hc).
      * injection Heq as <- <-. left. unfold reportOf. cbn [fst snd].
        rewrite Hc. apply list_elem_of_here.
      * right. by exists s', c, o.
Qed.

Lemma posts_sublist ev (w : World) (l : list (ISubscriber * Stage)) :
  Forall (coherent ev w) l →
  concat (postOf ev <$> l) `sublist_of` omap (deliveryOf ev) l.*1.
Proof.
  induction 1 as [|[s stage] l Hb _ IH]; [done|].
  rewrite !fmap_cons. cbn [concat omap list_omap fst].
  unfold postOf at 1. cbn [fst snd].
  destruct (hasPosted stage), (deliveryOf ev s); cbn [option_list app];
    [by apply sublist_skip | done | by apply sublist_cons | done].
Qed.

Lemma posts_settled ev (w : World) (l : list (ISubscriber * Stage)) :
  Forall (coherent ev w) l →
  forallb settled l = true →
  concat (postOf ev <$> l) = omap (deliveryOf ev) l.*1
  ∧ length (concat (postOf ev <$> l)) = count sent (omap ended l)
  ∧ length (omap ended l) = length l.
Proof.
  unfold count. induction 1 as [|[s stage] l Hb _ IH]; [done|].
  cbn [forallb]. intros [Hs Hl]%andb_true_iff. destruct (IH Hl) as (IH1 & IH2 & IH3).
  rewrite !fmap_cons. cbn [concat omap list_omap fst snd].
  rewrite length_app, IH2, IH1. unfold postOf, deliveryOf, settled in *.
  cbn [fst snd] in *.
  destruct stage as [| | |c o]; try done. cbn [hasPosted List.filter length].
  rewrite IH3.
  destruct c; unfold coherent, answered in Hb; cbn [fst snd] in Hb; cbn [sent length];
    [destruct Hb as (_ & value & client & -> & _)
    |destruct Hb as (_ & (e & (value & client & -> & _) & _) & _)
    |destruct Hb as (_ & ->)
    |destruct Hb as (_ & ->)
    |destruct Hb as (_ & (value & client & -> & _) & _)];
    cbn [option_list app length]; done.
Qed.

Lemma advance_rank ev s stage (w : World) :
  rank (advance ev s stage w).1 ≤ pred (rank stage).
Proof.
  destruct stage as [|[[]|e]|inSend e|b o]; cbn [rank].
  - destruct (executionOf ev s) as [e| |value] eqn:Hexecution.
    + unfold advance. rewrite Hexecution. cbn. lia.
    + unfold advance. rewrite Hexecution. cbn. lia.
    + rewrite (advance_started_result ev s value w Hexecution). cbn. lia.
  - cbn. lia.
  - unfold advance. destruct (isStale e); cbn; lia.
  - cbn. lia.
  - cbn. lia.
Qed.

Lemma run_rank ev schedule (p : Pool) i b :
  branches p !! i = Some b →
  ∃ b', branches (foldl (stepAt ev) p schedule) !! i = Some b'
        ∧ rank b'.2 ≤ rank b.2 - length (filter (λ j, j = i) schedule).
Proof.
  revert p b. induction schedule as [|j schedule IH]; intros p b Hi.
  - exists b. split; [done|]. cbn. lia.
  - cbn [foldl]. rewrite filter_cons.
    assert (∃ b1, branches (stepAt ev p j) !! i = Some b1
                  ∧ rank b1.2 ≤ rank b.2 - (if decide (j = i) then 1 else 0))
      as (b1 & Hb1 & Hrank1).
    { unfold stepAt. destruct (branches p !! j) as [[s stage]|] eqn:Hj.
      - pose proof (advance_rank ev s stage (world p)) as Hrank.
        destruct (advance ev s stage (world p)) as [stage' w']. cbn [fst] in Hrank.
        cbn [branches]. case_decide as Hji.
        + subst j. rewrite Hi in Hj. injection Hj as ->.
          exists (s, stage'). rewrite list_lookup_insert_eq by (by eapply lookup_lt_Some).
          split; [done|]. cbn [snd] in *. lia.
        + exists b. rewrite list_lookup_insert_ne by done. split; [done|]. lia.
      - exists b. split; [done|]. case_decide; [|lia].
        subst j. congruence. }
    destruct (IH _ _ Hb1) as (b' & Hb' & Hrank').
    exists b'. split; [done|]. case_decide; cbn [length]; lia.
Qed.

Lemma thorough_settles ev schedule subscribers (w : World) :
  thorough schedule (length subscribers) →
  forallb settled (branches (foldl (stepAt ev) (start subscribers w) schedule)) = true.
Proof.
  intros Hthorough.
  pose proof (run_invariant ev subscribers w schedule _ (start_invariant ev subscribers w))
    as (Hfst & _).
  apply forallb_forall. intros b' [i Hb']%list_elem_of_In%list_elem_of_lookup.
  assert (i < length subscribers) as Hlt.
  { rewrite <- Hfst, length_fmap. by eapply lookup_lt_Some. }
  destruct (lookup_lt_is_Some_2 subscribers i Hlt) as [s Hs].
  destruct (run_rank ev schedule (start subscribers w) i (s, Started))
    as (b'' & Hb'' & Hrank).
  { cbn [branches]. by rewrite list_lookup_fmap, Hs. }
  rewrite Hb' in Hb''. injection Hb'' as <-.
  specialize (Hthorough i Hlt). cbn [snd rank] in Hrank.
  unfold settled. destruct b' as [s' [| | |c o]]; cbn [snd rank] in *; [lia..|done].
Qed.

(** Under an [onError] that returns, no wrapped promise rejects. *)
Lemma quiet_never_rejects ev subscribers (w : World) schedule :
  (∀ e, onError e = None) →
  rejection (foldl (stepAt ev) (start subscribers w) schedule) = None.
Proof.
  intros Hquiet.
  pose proof (run_invariant ev subscribers w schedule _ (start_invariant ev subscribers w))
    as (_ & Hcoherent & _ & _ & Hrej).
  destruct (rejection _) as [e'|]; [|done].
  destruct Hrej as (s & c & Hin).
  pose proof (proj1 (Forall_forall _ _) Hcoherent _ Hin) as Hb.
  unfold coherent, handled in Hb. cbn [fst snd] in Hb.
  destruct c as [| | |e|e]; try (by destruct Hb as [? _]);
    destruct Hb as [Ho _]; by rewrite Hquiet in Ho.
Qed.

Lemma handlerUnder_one_batch schedule (subs : Subscriptions) ev subscribers (w : World) :
  subscribersByEvent getSubscriptionNameFromEvent subs ev = [subscribers] →
  handlerUnder [schedule] subs ev w = promiseAll schedule ev subscribers w.
Proof.
  intros Hbatch. unfold handlerUnder. rewrite Hbatch. cbn [forAwaitAll hd tl].
  by destruct (promiseAll schedule ev subscribers w) as [[[[]|e]|] w'].
Qed.

(** The endings counted in a run are what they are called: how each
    subscriber's execution and post came out. *)
Lemma outcomes_sound schedule ev subscribers (w : World) :
  (promiseAll schedule ev subscribers w).1 = Some (Resolved tt) →
  Forall2
    (λ s c,
       match c with
       | Delivered => answered ev s None
       | Pruned => ∃ e, answered ev s (Some e) ∧ isStale e = true
       | Skipped => executionOf ev s = NoResult
       | FailedBeforeSend e => executionOf ev s = ExecutionFailed e
       | FailedInSend e => answered ev s (Some e) ∧ isStale e = false
       end)
    subscribers (outcomesUnder schedule ev subscribers w).
Proof.
  pose proof (run_invariant ev subscribers w schedule _ (start_invariant ev subscribers w))
    as (Hfst & Hcoherent & _).
  unfold promiseAll, outcomesUnder. cbn [fst snd].
  set (p := foldl (stepAt ev) (start subscribers w) schedule) in *.
  destruct (rejection p); [done|].
  destruct (forallb settled (branches p)) eqn:Hsettled; [|done]. intros _.
  rewrite <- Hfst. clear Hfst.
  induction Hcoherent as [|[s stage] l Hb _ IH]; [by constructor|].
  cbn [forallb] in Hsettled. apply andb_true_iff in Hsettled as [Hs Hl].
  rewrite fmap_cons. cbn [omap list_omap fst snd].
  unfold settled in Hs. cbn [snd] in Hs.
  destruct stage as [| | |c o]; try done.
  constructor; [|by apply IH].
  unfold coherent in Hb. cbn [fst snd] in Hb.
  destruct c; [by destruct Hb as (_ & ?)|by destruct Hb as (_ & ? & _)
              |by destruct Hb as (_ & ?)|by destruct Hb as (_ & ?)
              |by destruct Hb as (_ & ?)].
Qed.

Lemma promiseAll_posts schedule ev subscribers (w : World) :
  ∃ new,
    posted (promiseAll schedule ev subscribers w).2 = posted w ++ new
    ∧ (λ r, (ConnectionId r, Data r)) <$> new ⊆+ omap (deliveryOf ev) subscribers
    ∧ ((promiseAll schedule ev subscribers w).1 = Some (Resolved tt) →
       (λ r, (ConnectionId r, Data r)) <$> new ≡ₚ omap (deliveryOf ev) subscribers).
Proof.
  pose proof (run_invariant ev subscribers w schedule _ (start_invariant ev subscribers w))
    as (Hfst & Hcoherent & (new & Hposted & Hposts) & _ & _).
  unfold promiseAll. cbn [fst snd].
  set (p := foldl (stepAt ev) (start subscribers w) schedule) in *.
  exists new. split; [done|]. split.
  - rewrite Hposts, <- Hfst. by eapply sublist_submseteq, posts_sublist.
  - destruct (rejection _); [done|].
    destruct (forallb settled _) eqn:Hsettled; [|done]. intros _.
    rewrite Hposts, <- Hfst.
    by rewrite (proj1 (posts_settled ev _ _ Hcoherent Hsettled)).
Qed.


(** X22: in whatever order the branches are resumed, a dispatch posts only
    requests addressed to a subscriber of the batch whose execution has a
    result, carrying the envelope of that result, and never two for one
    subscriber; when the handler resolves it has posted exactly one for each
    such subscriber (in the order the branches reached their send). *)
Theorem dispatch_deliveries schedule (subs : Subscriptions) ev subscribers (w : World) :
  subscribersByEvent getSubscriptionNameFromEvent subs ev = [subscribers] →
  ∃ new,
    posted (handlerUnder [schedule] subs ev w).2 = posted w ++ new
    ∧ (λ r, (ConnectionId r, Data r)) <$> new ⊆+ omap (deliveryOf ev) subscribers
    ∧ ((handlerUnder [schedule] subs ev w).1 = Some (Resolved tt) →
       (λ r, (ConnectionId r, Data r)) <$> new ≡ₚ omap (deliveryOf ev) subscribers).
Proof.
  intros Hbatch. rewrite (handlerUnder_one_batch _ _ _ _ _ Hbatch).
  apply promiseAll_posts.
Qed.

(** X24: in whatever order the branches are resumed, when the handler
    settles it has resolved exactly if [onError] returned for every error
    handed to it so far, and if it has rejected, then with what [onError]
    threw for one of those errors. *)
Theorem dispatch_resolves_iff schedule (subs : Subscriptions) ev subscribers
    (w : World) o :
  subscribersByEvent getSubscriptionNameFromEvent subs ev = [subscribers] →
  (handlerUnder [schedule] subs ev w).1 = Some o →
  ∃ new,
    reported (handlerUnder [schedule] subs ev w).2 = reported w ++ new
    ∧ (o = Resolved tt ↔ ∀ e, e ∈ new → onError e = None)
    ∧ (∀ e', o = Rejected e' → ∃ e, e ∈ new ∧ onError e = Some e').
Proof.
  intros Hbatch. rewrite (handlerUnder_one_batch _ _ _ _ _ Hbatch).
  pose proof (run_invariant ev subscribers w schedule _ (start_invariant ev subscribers w))
    as (_ & Hcoherent & _ & (new & Hreported & Hreports) & Hrej).
  unfold promiseAll. cbn [fst snd]. intros Ho. exists new. split; [done|].
  assert (∀ e', rejection (foldl (stepAt ev) (start subscribers w) schedule) = Some e' →
                ∃ e, e ∈ new ∧ onError e = Some e') as Hthrown.
  { intros e' He'. rewrite He' in Hrej. destruct Hrej as (s & c & Hin).
    pose proof (proj1 (Forall_forall _ _) Hcoherent _ Hin) as Hb.
    unfold coherent, handled in Hb. cbn [fst snd] in Hb.
    destruct c as [| | |e|e]; try (by destruct Hb as [? _]);
      destruct Hb as [Hhandled _]; exists e;
      (split; [rewrite Hreports; apply reports_elem; by eexists s, _, _|]);
      destruct (onError e); congruence. }
  destruct (rejection _) as [e0|] eqn:Hrejection.
  - injection Ho as <-. destruct (Hthrown e0 eq_refl) as (e & Hin & He).
    split; [split; [done|]|].
    + intros Hquiet. specialize (Hquiet e Hin). congruence.
    + intros e' [= <-]. by exists e.
  - destruct (forallb settled _); [|done]. injection Ho as <-.
    split; [split; [intros _|done]|done].
    intros e Hin. rewrite Hreports in Hin.
    apply reports_elem in Hin as (s & c & o & Hin & Hc).
    pose proof (proj1 (Forall_forall _ _) Hcoherent _ Hin) as Hb.
    pose proof (proj1 (Forall_forall _ _) Hrej _ Hin) as Hresolved.
    cbn [snd] in Hresolved.
    unfold coherent, handled in Hb. cbn [fst snd] in Hb.
    destruct c as [| | |e1|e1]; try done; injection Hc as ->;
      destruct Hb as [-> _]; destruct (onError e) as [e'|]; try done;
      exfalso; by eapply (Hresolved _ e').
Qed.


End Schedules.

(** ** The array-order run is one of the schedules *)

Section ArrayOrder.

Variable getSubscriptionNameFromEvent : ISubscriptionEvent -> string.
Variable transport : ApiGatewayManagementApi -> string -> string -> option Thrown.
Variable GraphQLServerOptions : Type.
Variable createGraphQLServerOptions :
  ISubscriptionEvent -> IConnection -> OperationRequest -> Outcome GraphQLServerOptions.
Variable execute :
  GraphQLServerOptions -> ISubscriptionEvent -> IConnection -> OperationRequest ->
  Outcome ExecuteOutput.
Variable formatMessage : OperationMessage -> string.
Variable GQL_DATA : string.
Variable onError : Thrown -> option Thrown.

Local Abbreviation deliver :=
  (deliver transport GraphQLServerOptions createGraphQLServerOptions execute
     formatMessage GQL_DATA).
Local Abbreviation executionOf :=
  (executionOf GraphQLServerOptions createGraphQLServerOptions execute).
Local Abbreviation advance :=
  (advance transport GraphQLServerOptions createGraphQLServerOptions execute
     formatMessage GQL_DATA onError).
Local Abbreviation stepAt :=
  (stepAt transport GraphQLServerOptions createGraphQLServerOptions execute
     formatMessage GQL_DATA onError).
Local Abbreviation promiseAll :=
  (promiseAll transport GraphQLServerOptions createGraphQLServerOptions execute
     formatMessage GQL_DATA onError).
Local Abbreviation guarded ev s := (catch (deliver ev s) (callOnError onError)).

Lemma stepAt_middle ev before s stage rest (w : World) r :
  stepAt ev {| branches := before ++ (s, stage) :: rest; world := w; rejection := r |}
    (length before)
  = {| branches := before ++ (s, (advance ev s stage w).1) :: rest;
       world := (advance ev s stage w).2;
       rejection := match r, (advance ev s stage w).1 with
                    | Some e, _ => Some e
                    | None, Settled _ (Rejected e) => Some e
                    | None, _ => None
                    end |}.
Proof.
  unfold stepAt. cbn [branches world rejection].
  rewrite list_lookup_middle by done.
  destruct (advance ev s stage w) as [stage' w']. cbn [fst snd]. f_equal.
  replace (length before) with (length before + 0) by lia.
  by rewrite insert_app_r.
Qed.

Lemma advance_started_failed ev s e (w : World) :
  executionOf ev s = ExecutionFailed e → advance ev s Started w = (Rejecting false e, w).
Proof. intros Hexecution. unfold advance. by rewrite Hexecution. Qed.

Lemma advance_started_nothing ev s (w : World) :
  executionOf ev s = NoResult →
  advance ev s Started w = (Settled Skipped (Resolved tt), w).
Proof. intros Hexecution. unfold advance. by rewrite Hexecution. Qed.

(** Three stretches in a row are the whole branch with its [catch], as
    [deliver], [sendToConnection] and [callOnError] give it. *)
Lemma three_stretches ev before s rest (w : World) r :
  ∃ c,
    foldl (stepAt ev)
      {| branches := before ++ (s, Started) :: rest; world := w; rejection := r |}
      [length before; length before; length before]
    = {| branches := before ++ (s, Settled c (guarded ev s w).1) :: rest;
         world := (guarded ev s w).2;
         rejection := match r, (guarded ev s w).1 with
                      | Some e, _ => Some e
                      | None, Rejected e => Some e
                      | None, Resolved _ => None
                      end |}.
Proof.
  cbn [foldl]. rewrite !stepAt_middle. cbn [fst snd].
  rewrite guarded_cases. cbv zeta.
  destruct (executionOf ev s) as [e| |value] eqn:Hexecution.
  - rewrite !(advance_started_failed ev s e w Hexecution).
    cbn. destruct (onError e), r; by eexists.
  - rewrite !(advance_started_nothing ev s w Hexecution).
    cbn. destruct r; by eexists.
  - rewrite !(advance_started_result transport GraphQLServerOptions
                createGraphQLServerOptions execute formatMessage GQL_DATA onError
                ev s value w Hexecution).
    destruct (transport _ _ _) as [e|]; cbn [fst snd].
    + unfold advance. destruct (isStale e); cbn.
      * destruct r; by eexists.
      * destruct (onError e), r; by eexists.
    + cbn. destruct r; by eexists.
Qed.

Lemma all_cons_outcome p rest (w : World) :
  (all (p :: rest) w).1 =
    match (p w).1 with
    | Rejected e => Rejected e
    | Resolved _ => (all rest (p w).2).1
    end.
Proof.
  cbn [all]. destruct (p w) as [o w1]. cbn [fst snd].
  by destruct (all rest w1).
Qed.

Lemma array_order_run ev before rest (w : World) r :
  ∃ ends,
    foldl (stepAt ev)
      {| branches := before ++ ((λ s, (s, Started)) <$> rest); world := w; rejection := r |}
      (arrayOrder (length before) (length rest))
    = {| branches := before ++ ends;
         world := (all (map (λ promise, catch promise (callOnError onError))
                          (map (deliver ev) rest)) w).2;
         rejection :=
           match r, (all (map (λ promise, catch promise (callOnError onError))
                            (map (deliver ev) rest)) w).1 with
           | Some e, _ => Some e
           | None, Rejected e => Some e
           | None, Resolved _ => None
           end |}
    ∧ forallb settled ends = true.
Proof.
  revert before w r. induction rest as [|s rest IH]; intros before w r.
  - exists []. split; [|done]. cbn. rewrite app_nil_r. by destruct r.
  - unfold arrayOrder. cbn [length seq]. rewrite bind_cons, foldl_app.
    rewrite fmap_cons.
    destruct (three_stretches ev before s ((λ s, (s, Started)) <$> rest) w r)
      as [c ->].
    fold (arrayOrder (S (length before)) (length rest)).
    destruct (IH (before ++ [(s, Settled c (guarded ev s w).1)]) (guarded ev s w).2
                (match r, (guarded ev s w).1 with
                 | Some e, _ => Some e
                 | None, Rejected e => Some e
                 | None, Resolved _ => None
                 end)) as (ends & Hrun & Hsettled).
    rewrite length_app in Hrun. cbn [length] in Hrun.
    replace (length before + 1) with (S (length before)) in Hrun by lia.
    rewrite <- (assoc_L (++)) in Hrun. cbn [app] in Hrun.
    exists ((s, Settled c (guarded ev s w).1) :: ends). split; [|done].
    rewrite Hrun, <- (assoc_L (++)). cbn [app map].
    rewrite all_cons_world, all_cons_outcome.
    f_equal. destruct r; [done|]. by destruct (guarded ev s w).1.
Qed.

(** The handler that takes the branches one after the other is the handler
    under the array-order schedule. *)
Lemma handler_is_array_order (subs : Subscriptions) ev subscribers (w : World) :
  subscribersByEvent getSubscriptionNameFromEvent subs ev = [subscribers] →
  handlerUnder getSubscriptionNameFromEvent transport GraphQLServerOptions
    createGraphQLServerOptions execute formatMessage GQL_DATA onError
    [arrayOrder 0 (length subscribers)] subs ev w
  = (Some (handler getSubscriptionNameFromEvent transport GraphQLServerOptions
             createGraphQLServerOptions execute formatMessage GQL_DATA onError
             subs ev w).1,
     (handler getSubscriptionNameFromEvent transport GraphQLServerOptions
        createGraphQLServerOptions execute formatMessage GQL_DATA onError
        subs ev w).2).
Proof.
  intros Hbatch.
  rewrite (handlerUnder_one_batch _ _ _ _ _ _ _ _ _ _ _ _ _ Hbatch).
  rewrite (handler_one_batch _ _ _ _ _ _ _ _ _ _ _ _ Hbatch).
  unfold promiseAll.
  destruct (array_order_run ev [] subscribers w None) as (ends & Hrun & Hsettled).
  cbn [app length] in Hrun. rewrite Hrun. cbn [branches world rejection fst snd].
  destruct (all _ w) as [[[]|e] w']; cbn [fst snd]; [by rewrite Hsettled|done].
Qed.

End ArrayOrder.

(** ** Subscribe, then dispatch *)

Section EndToEnd.

Variable getSubscriptionNameFromEvent : ISubscriptionEvent -> string.
Variable getSubscriptionNameFromConnection : string -> IConnection -> string.
Variable transport : ApiGatewayManagementApi -> string -> string -> option Thrown.
Variable GraphQLServerOptions : Type.
Variable createGraphQLServerOptions :
  ISubscriptionEvent -> IConnection -> OperationRequest -> Outcome GraphQLServerOptions.
Variable execute :
  GraphQLServerOptions -> ISubscriptionEvent -> IConnection -> OperationRequest ->
  Outcome ExecuteOutput.
Variable formatMessage : OperationMessage -> string.
Variable GQL_DATA : string.
Variable onError : Thrown -> option Thrown.

Local Abbreviation handlerUnder :=
  (handlerUnder getSubscriptionNameFromEvent transport GraphQLServerOptions
     createGraphQLServerOptions execute formatMessage GQL_DATA onError).


End EndToEnd.

(** ** Runs on the four listeners *)

Lemma Sample_crowd_batch :
  subscribersByEvent defaultNameFromEvent Sample.crowd Sample.chat
  = [[Sample.s1; Sample.s2; Sample.s3; Sample.s4]].
Proof. vm_compute. reflexivity. Qed.

Lemma Sample_shuffled_thorough : thorough Sample.shuffled 4.
Proof.
  intros i Hi. destruct i as [|[|[|[|i]]]]; [vm_compute; lia..|lia].
Qed.

(** With a throwing [onError] the handler can reject before any request is
    issued: here the failing branch is resumed twice and the others not yet. *)
Example early_rejection :
  handlerUnder defaultNameFromEvent (Sample.failingFor "c4" Sample.denied)
    Sample.options Sample.createOptions Sample.executeMixed Sample.format "data"
    Sample.rethrowing [[2; 2]] Sample.crowd Sample.chat Sample.crowded
  = (Some (Rejected Sample.resolverError), log_reported Sample.resolverError Sample.crowded).
Proof. vm_compute. reflexivity. Qed.


Lemma dispatch_deliveries_witness :
  subscribersByEvent defaultNameFromEvent Sample.crowd Sample.chat
    = [[Sample.s1; Sample.s2; Sample.s3; Sample.s4]]
  ∧ ∃ new,
      posted (handlerUnder defaultNameFromEvent (Sample.failingFor "c4" Sample.denied)
                Sample.options Sample.createOptions Sample.executeMixed Sample.format
                "data" Sample.rethrowing [Sample.shuffled] Sample.crowd Sample.chat
                Sample.crowded).2
        = posted Sample.crowded ++ new
      ∧ (λ r, (ConnectionId r, Data r)) <$> new
        ⊆+ [("c1", "data:1:{}"); ("c4", "data:1:{}")].
Proof.
  split; [exact Sample_crowd_batch|].
  destruct (dispatch_deliveries defaultNameFromEvent (Sample.failingFor "c4" Sample.denied)
              Sample.options Sample.createOptions Sample.executeMixed Sample.format
              "data" Sample.rethrowing Sample.shuffled Sample.crowd Sample.chat
              [Sample.s1; Sample.s2; Sample.s3; Sample.s4] Sample.crowded
              Sample_crowd_batch) as (new & Hposted & Hsub & _).
  exists new. split; [exact Hposted|]. exact Hsub.
Defined.

Lemma dispatch_resolves_iff_witness :
  let run :=
    handlerUnder defaultNameFromEvent (Sample.failingFor "c4" Sample.denied)
      Sample.options Sample.createOptions Sample.executeMixed Sample.format "data"
      Sample.rethrowing [Sample.shuffled] Sample.crowd Sample.chat Sample.crowded in
  subscribersByEvent defaultNameFromEvent Sample.crowd Sample.chat
    = [[Sample.s1; Sample.s2; Sample.s3; Sample.s4]]
  ∧ run.1 = Some (Rejected Sample.resolverError)
  ∧ ∃ new, reported run.2 = reported Sample.crowded ++ new
           ∧ ∃ e, e ∈ new ∧ Sample.rethrowing e = Some Sample.resolverError.
Proof.
  cbv zeta.
  assert ((handlerUnder defaultNameFromEvent (Sample.failingFor "c4" Sample.denied)
             Sample.options Sample.createOptions Sample.executeMixed Sample.format
             "data" Sample.rethrowing [Sample.shuffled] Sample.crowd Sample.chat
             Sample.crowded).1 = Some (Rejected Sample.resolverError)) as Hrejected
    by (vm_compute; reflexivity).
  split; [exact Sample_crowd_batch|]. split; [exact Hrejected|].
  destruct (dispatch_resolves_iff defaultNameFromEvent
              (Sample.failingFor "c4" Sample.denied) Sample.options
              Sample.createOptions Sample.executeMixed Sample.format "data"
              Sample.rethrowing Sample.shuffled Sample.crowd Sample.chat
              [Sample.s1; Sample.s2; Sample.s3; Sample.s4] Sample.crowded
              (Rejected Sample.resolverError) Sample_crowd_batch Hrejected)
    as (new & Hreported & _ & Hthrown).
  exists new. split; [exact Hreported|]. exact (Hthrown _ eq_refl).
Defined.


